(** * Blog platform with threaded comments: a shallow embedding of
    [posts/models.py], [posts/serializers.py], [posts/permissions.py] and
    [posts/views.py], together with the parts of Django and Django REST
    framework (DRF) these files rely on: field validation, the permission
    hooks of a [ModelViewSet], [on_delete=CASCADE] collection, and the
    recursive [RecursiveField] representation of comments. *)

From Stdlib Require Import List Bool Arith Lia ZArith String Ascii Permutation Sorted.
From stdpp Require Import base gmap strings.
Import ListNotations.
Open Scope nat_scope.
#[local] Set Warnings "-register-all".

(* ------------------------------------------------------------------ *)
(** ** Rows of the tables (models.py) *)

(** [django.contrib.auth.models.User]; [str(user)] is its username. *)
Record User := mkUser { u_id : nat; username : string }.

(** [class Category]: [name] is unique. *)
Record Category := mkCategory { cat_id : nat; cat_name : string }.

(** [class Tag]: [name] is unique. *)
Record Tag := mkTag { tag_id : nat; tag_name : string }.

(** [class Post]: [category] is a nullable foreign key, [tag] a
    many-to-many set, [author] a foreign key to [User]. Timestamps are
    the clock readings of [auto_now_add] / [auto_now]. *)
Record Post := mkPost {
  p_id : nat;
  title : string;
  p_content : string;
  p_category : option nat;
  p_tags : list nat;
  p_created : nat;
  p_updated : nat;
  p_author : nat
}.

(** [class Comment]: [post] and [author] are foreign keys, [parent] the
    nullable self reference whose reverse accessor is [replies]. *)
Record Comment := mkComment {
  c_id : nat;
  c_post : nat;
  c_content : string;
  c_author : nat;
  c_parent : option nat;
  c_created : nat;
  c_updated : nat
}.

(** The database: one list per table, rows in insertion order, and one
    primary-key sequence per table (ids are never reused). *)
Record Store := mkStore {
  users : list User;
  categories : list Category;
  tags : list Tag;
  posts : list Post;
  comments : list Comment;
  next_category : nat;
  next_tag : nat;
  next_post : nat;
  next_comment : nat
}.

(* ------------------------------------------------------------------ *)
(** ** Queries *)

Definition find_user (st : Store) (i : nat) : option User :=
  List.find (fun u => u_id u =? i) (users st).

Definition find_post (st : Store) (i : nat) : option Post :=
  List.find (fun p => p_id p =? i) (posts st).

Definition find_comment (st : Store) (i : nat) : option Comment :=
  List.find (fun c => c_id c =? i) (comments st).

(** The [parent_id] column of the row with primary key [i]. *)
Definition parent_of (st : Store) (i : nat) : option nat :=
  match find_comment st i with Some c => c_parent c | None => None end.

(** [Comment.objects.filter(parent=c)], i.e. [c.replies.all()], before
    the database chooses an order for the rows. *)
Definition children (st : Store) (c : Comment) : list Comment :=
  List.filter (fun d => match c_parent d with
                        | Some p => p =? c_id c
                        | None => false
                        end) (comments st).

Definition comment_ids (st : Store) : list nat := map c_id (comments st).

(** [parent^k] on primary keys: [iter_parent k x = Some a] when [a] is
    reached from [x] by following [parent] [k] times. *)
Fixpoint iter_parent (st : Store) (k : nat) (x : nat) : option nat :=
  match k with
  | O => Some x
  | S k' => match parent_of st x with
            | Some p => iter_parent st k' p
            | None => None
            end
  end.

(* ------------------------------------------------------------------ *)
(** ** The representation of a comment (CommentSerializer) *)

(** The dictionary produced by [CommentSerializer(c).data]: [post] is the
    post's title ([SlugRelatedField(slug_field='title')]), [author] the
    username ([StringRelatedField]), [parent] the primary key or null and
    [replies] the list produced by [RecursiveField(many=True)]. *)
Inductive Node := mkNode {
  n_id : nat;
  n_post : string;
  n_content : string;
  n_author : string;
  n_parent : option nat;
  n_created : nat;
  n_updated : nat;
  n_replies : list Node
}.

Definition to_node (st : Store) (c : Comment) (rs : list Node) : Node :=
  {| n_id := c_id c;
     n_post := match find_post st (c_post c) with Some p => title p | None => "" end;
     n_content := c_content c;
     n_author := match find_user st (c_author c) with Some u => username u | None => "" end;
     n_parent := c_parent c;
     n_created := c_created c;
     n_updated := c_updated c;
     n_replies := rs |}.

Fixpoint map_opt {A B} (f : A -> option B) (l : list A) : option (list B) :=
  match l with
  | [] => Some []
  | x :: l' => match f x, map_opt f l' with
               | Some y, Some ys => Some (y :: ys)
               | _, _ => None
               end
  end.

Section Serialization.

(** The order in which the database returns the rows of a query that has
    no [ORDER BY]: [Comment] declares no [Meta.ordering] and neither
    [replies.all()] nor [get_queryset] calls [order_by], so SQL leaves the
    order to the database. All the code relies on is that the rows are
    the matching ones. *)
Variable query_order : list Comment -> list Comment.

(** [RecursiveField.to_representation] builds a new [CommentSerializer]
    for every reply, so the representation of [c] recursively contains
    the representations of [c.replies.all()]. Every nesting level adds
    Python frames ([to_representation], the [ListSerializer] of
    [replies], [RecursiveField.to_representation], [.data]), and CPython
    raises [RecursionError] once the interpreter's recursion limit
    ([sys.getrecursionlimit()], 1000 by default) is reached. [fuel] is the
    number of nesting levels that limit leaves room for: it is fixed by
    the interpreter and the frames per level, and is left as a parameter.
    [None] is the [RecursionError], which DRF does not catch (a 500). *)
Fixpoint serialize (fuel : nat) (st : Store) (c : Comment) : option Node :=
  match fuel with
  | O => None
  | S f => match map_opt (serialize f st) (query_order (children st c)) with
           | Some rs => Some (to_node st c rs)
           | None => None
           end
  end.

End Serialization.

(** All primary keys in a representation, the root first. *)
Fixpoint flatten (t : Node) : list nat :=
  n_id t :: concat (map flatten (n_replies t)).

(** The primary keys found [k] levels below the root. *)
Fixpoint at_depth (k : nat) (t : Node) : list nat :=
  match k with
  | O => [n_id t]
  | S k' => concat (map (at_depth k') (n_replies t))
  end.

(* ------------------------------------------------------------------ *)
(** ** Request bodies and the Python built-ins DRF applies to them *)

(** A JSON value as parsed into Python. *)
Inductive Value :=
| VNull
| VBool (b : bool)
| VInt (z : Z)
| VStr (s : string)
| VList (l : list Value).

(** [request.data]: a JSON object (a Python dict). *)
Abbreviation Body := (gmap string Value).

(** [str.isspace] on ASCII: tab, newline, vertical tab, form feed,
    carriage return, the separators 0x1c-0x1f and space. *)
Definition is_space (a : ascii) : bool :=
  let n := nat_of_ascii a in ((9 <=? n) && (n <=? 13)) || ((28 <=? n) && (n <=? 32)).

Fixpoint drop_spaces (l : list ascii) : list ascii :=
  match l with
  | a :: l' => if is_space a then drop_spaces l' else l
  | [] => []
  end.

(** [str.strip()]. *)
Definition strip (s : string) : string :=
  string_of_list_ascii (rev (drop_spaces (rev (drop_spaces (list_ascii_of_string s))))).

Definition is_digit (a : ascii) : bool :=
  (48 <=? nat_of_ascii a) && (nat_of_ascii a <=? 57).

Definition digit_value (a : ascii) : Z := Z.of_nat (nat_of_ascii a - 48).

(** Decimal digits with single underscores between digits, as [int()]
    accepts them; [seen_digit] says the previous character was a digit. *)
Fixpoint parse_digits (l : list ascii) (acc : Z) (seen_digit : bool) : option Z :=
  match l with
  | [] => if seen_digit then Some acc else None
  | a :: l' =>
      if is_digit a then parse_digits l' (acc * 10 + digit_value a)%Z true
      else if Ascii.eqb a "_" && seen_digit then parse_digits l' acc false
      else None
  end.

(** [int(s)] for a string: surrounding white space, an optional sign,
    then decimal digits. [None] is the [ValueError]. *)
Definition python_int (s : string) : option Z :=
  match list_ascii_of_string (strip s) with
  | "+"%char :: l => parse_digits l 0 false
  | "-"%char :: l => option_map Z.opp (parse_digits l 0 false)
  | l => parse_digits l 0 false
  end.

Fixpoint n_digits (fuel : nat) (n : N) (acc : string) : string :=
  match fuel with
  | O => acc
  | S f =>
      let acc' := String (ascii_of_N (48 + N.modulo n 10)) acc in
      if (N.div n 10 =? 0)%N then acc' else n_digits f (N.div n 10) acc'
  end.

(** [str(z)] for an integer. *)
Definition z_to_str (z : Z) : string :=
  let s := n_digits (S (N.size_nat (Z.abs_N z))) (Z.abs_N z) "" in
  if (z <? 0)%Z then String "-" s else s.

Fixpoint join (sep : string) (l : list string) : string :=
  match l with
  | [] => ""
  | [x] => x
  | x :: l' => x ++ sep ++ join sep l'
  end.

(** [str(v)], which Django's [CharField.to_python] applies to a lookup
    value; inside a list the elements are shown by [repr] (the quoting of
    strings is simplified: quotes inside them are not escaped). *)
Fixpoint py_repr (v : Value) : string :=
  match v with
  | VNull => "None"
  | VBool true => "True"
  | VBool false => "False"
  | VInt z => z_to_str z
  | VStr s => "'" ++ s ++ "'"
  | VList l => "[" ++ join ", " (map py_repr l) ++ "]"
  end.

Definition py_str (v : Value) : string :=
  match v with VStr s => s | _ => py_repr v end.

(* ------------------------------------------------------------------ *)
(** ** DRF fields *)

(** The outcome of [field.run_validation(field.get_value(data))]: a value,
    [SkipField], a [ValidationError] with its code, or an exception that
    DRF does not catch (it becomes a server error). *)
Inductive FieldResult (A : Type) :=
| FOk (a : A)
| FSkip
| FErr (code : string)
| FCrash.
Arguments FOk {A} a.
Arguments FSkip {A}.
Arguments FErr {A} code.
Arguments FCrash {A}.

(** [Field.validate_empty_values] for a key absent from the body:
    skipped on a partial update, ["required"] for a required field,
    skipped otherwise (no default). *)
Definition missing {A} (partial required : bool) : FieldResult A :=
  if partial then FSkip else if required then FErr "required" else FSkip.

(** [CharField] with [allow_blank=False], [allow_null=False],
    [trim_whitespace=True] and an optional [max_length]: a model
    [CharField] / [TextField] without [blank=True]. *)
Definition char_field (max_length : option nat) (partial : bool) (v : option Value)
  : FieldResult string :=
  match v with
  | None => missing partial true
  | Some VNull => FErr "null"
  | Some (VStr s) =>
      if String.eqb (strip s) "" then FErr "blank"
      else match max_length with
           | Some m => if m <? String.length (strip s) then FErr "max_length"
                       else FOk (strip s)
           | None => FOk (strip s)
           end
  | Some (VInt z) =>
      match max_length with
      | Some m => if m <? String.length (z_to_str z) then FErr "max_length"
                  else FOk (z_to_str z)
      | None => FOk (z_to_str z)
      end
  | Some _ => FErr "invalid"
  end.

(** The rows a [queryset.filter(slug_field=str(v))] returns, by slug. *)
Definition slug_matches {A} (slug : A -> string) (rows : list A) (v : Value) : list A :=
  match v with
  | VNull => []
  | _ => List.filter (fun r => String.eqb (slug r) (py_str v)) rows
  end.

(** [SlugRelatedField.to_internal_value]: [queryset.get(slug_field=data)].
    [ObjectDoesNotExist] is turned into ["does_not_exist"];
    [MultipleObjectsReturned] is not caught. *)
Definition slug_lookup {A} (slug : A -> string) (rows : list A) (v : Value) : FieldResult A :=
  match slug_matches slug rows v with
  | [] => FErr "does_not_exist"
  | [r] => FOk r
  | _ => FCrash
  end.

(** A required, non-nullable [SlugRelatedField]: [RelatedField.run_validation]
    first turns [""] into [None]. *)
Definition slug_field {A} (slug : A -> string) (rows : list A) (partial : bool)
  (v : option Value) : FieldResult A :=
  match v with
  | None => missing partial true
  | Some VNull | Some (VStr "") => FErr "null"
  | Some v => slug_lookup slug rows v
  end.

(** [SlugRelatedField(many=True)], i.e. [ManyRelatedField]: required,
    [allow_null=False], [allow_empty=True]; a string or a scalar is
    ["not_a_list"]; the items are looked up one by one and the first
    failing one raises. *)
Definition many_slug_field {A} (slug : A -> string) (rows : list A) (partial : bool)
  (v : option Value) : FieldResult (list A) :=
  match v with
  | None => missing partial true
  | Some VNull => FErr "null"
  | Some (VList items) =>
      fold_right (fun item acc =>
        match slug_lookup slug rows item, acc with
        | FCrash, _ => FCrash
        | FErr e, _ => FErr e
        | FOk r, FOk rs => FOk (r :: rs)
        | FOk _, other => other
        | FSkip, other => other
        end) (FOk []) items
  | Some _ => FErr "not_a_list"
  end.

(** [PrimaryKeyRelatedField(queryset=Comment.objects.all(),
    allow_null=True, required=False)]: [""] and [null] give [None]; a
    boolean or a value [int()] rejects is ["incorrect_type"]; an unknown
    key is ["does_not_exist"]. *)
Definition parent_field (st : Store) (partial : bool) (v : option Value)
  : FieldResult (option Comment) :=
  let by_pk z := if (z <? 0)%Z then FErr "does_not_exist"
                 else match find_comment st (Z.to_nat z) with
                      | Some c => FOk (Some c)
                      | None => FErr "does_not_exist"
                      end in
  match v with
  | None => missing partial false
  | Some VNull | Some (VStr "") => FOk None
  | Some (VBool _) => FErr "incorrect_type"
  | Some (VInt z) => by_pk z
  | Some (VStr s) => match python_int s with
                     | Some z => by_pk z
                     | None => FErr "incorrect_type"
                     end
  | Some (VList _) => FErr "incorrect_type"
  end.

(* ------------------------------------------------------------------ *)
(** ** Serializer validation ([Serializer.to_internal_value]) *)

(** The outcome of [serializer.is_valid(raise_exception=True)]: the
    validated data, a [ValidationError] naming the failing fields (a 400
    response), or an uncaught exception (a 500 response). *)
Inductive Validated (A : Type) :=
| VOk (a : A)
| VErrs (fields : list string)
| VCrash.
Arguments VOk {A} a.
Arguments VErrs {A} fields.
Arguments VCrash {A}.

Definition crashed {A} (r : FieldResult A) : bool :=
  match r with FCrash => true | _ => false end.

Definition err_name {A} (name : string) (r : FieldResult A) : list string :=
  match r with FErr _ => [name] | _ => [] end.

Definition field_value {A} (r : FieldResult A) : option A :=
  match r with FOk a => Some a | _ => None end.

(** The writable fields of [CommentSerializer], in declaration order:
    [post], [content], [parent]. [id], [author], [created_at],
    [updated_at] and [replies] are read-only and never read from the
    body. A field that is skipped leaves [None]. *)
Record CommentData := mkCommentData {
  cd_post : option Post;
  cd_content : option string;
  cd_parent : option (option Comment)
}.

Definition validate_comment (st : Store) (partial : bool) (body : Body)
  : Validated CommentData :=
  let fpost := slug_field title (posts st) partial (body !! "post") in
  let fcontent := char_field None partial (body !! "content") in
  let fparent := parent_field st partial (body !! "parent") in
  if crashed fpost || crashed fcontent || crashed fparent then VCrash
  else match err_name "post" fpost ++ err_name "content" fcontent
             ++ err_name "parent" fparent with
       | [] => VOk (mkCommentData (field_value fpost) (field_value fcontent)
                                  (field_value fparent))
       | es => VErrs es
       end.

(** The writable fields of [PostSerializer]: [title], [content],
    [category], [tag]; [author] is read-only. *)
Record PostData := mkPostData {
  pd_title : option string;
  pd_content : option string;
  pd_category : option Category;
  pd_tags : option (list Tag)
}.

Definition validate_post (st : Store) (partial : bool) (body : Body)
  : Validated PostData :=
  let ftitle := char_field (Some 300) partial (body !! "title") in
  let fcontent := char_field None partial (body !! "content") in
  let fcat := slug_field cat_name (categories st) partial (body !! "category") in
  let ftag := many_slug_field tag_name (tags st) partial (body !! "tag") in
  if crashed ftitle || crashed fcontent || crashed fcat || crashed ftag then VCrash
  else match err_name "title" ftitle ++ err_name "content" fcontent
             ++ err_name "category" fcat ++ err_name "tag" ftag with
       | [] => VOk (mkPostData (field_value ftitle) (field_value fcontent)
                               (field_value fcat) (field_value ftag))
       | es => VErrs es
       end.

(* ------------------------------------------------------------------ *)
(** ** Writes to the store *)

Definition set_comments (st : Store) (cs : list Comment) (next : nat) : Store :=
  mkStore (users st) (categories st) (tags st) (posts st) cs
          (next_category st) (next_tag st) (next_post st) next.

Definition set_posts (st : Store) (ps : list Post) (next : nat) : Store :=
  mkStore (users st) (categories st) (tags st) ps (comments st)
          (next_category st) (next_tag st) next (next_comment st).

(** [serializer.save(author=request.user)] in
    [CommentViewSet.perform_create]: [ModelSerializer.create] calls
    [Comment.objects.create] on the validated data and [author=user]. The new row
    takes the next primary key; a missing non-null column is an
    [IntegrityError] ([None]). The INSERT calls [pre_save] on the fields
    in declaration order: [created_at] ([auto_now_add]) reads the clock
    ([now]), then [updated_at] ([auto_now]) reads it again ([later]). *)
Definition create_comment (st : Store) (user now later : nat) (d : CommentData)
  : option (Store * Comment) :=
  match cd_post d, cd_content d with
  | Some p, Some s =>
      let c := {| c_id := next_comment st; c_post := p_id p; c_content := s;
                  c_author := user;
                  c_parent := match cd_parent d with
                              | Some (Some q) => Some (c_id q)
                              | _ => None
                              end;
                  c_created := now; c_updated := later |} in
      Some (set_comments st (comments st ++ [c]) (S (next_comment st)), c)
  | _, _ => None
  end.

(** [ModelSerializer.update]: the validated fields are set on the
    instance, which is saved ([auto_now] stamps [updated_at]). *)
Definition update_comment (st : Store) (c : Comment) (now : nat) (d : CommentData)
  : Store * Comment :=
  let c' := {| c_id := c_id c;
               c_post := match cd_post d with Some p => p_id p | None => c_post c end;
               c_content := match cd_content d with Some s => s | None => c_content c end;
               c_author := c_author c;
               c_parent := match cd_parent d with
                           | Some (Some q) => Some (c_id q)
                           | Some None => None
                           | None => c_parent c
                           end;
               c_created := c_created c; c_updated := now |} in
  (set_comments st (map (fun x => if c_id x =? c_id c then c' else x) (comments st))
                (next_comment st), c').

(** [serializer.save(author=request.user)] in [PostViewSet.perform_create];
    the many-to-many [tag] is set after the row is created. As for a
    comment, [created_at] and [updated_at] are two successive clock
    readings, [now] and [later]. *)
Definition create_post (st : Store) (user now later : nat) (d : PostData)
  : option (Store * Post) :=
  match pd_title d, pd_content d with
  | Some t, Some s =>
      let p := {| p_id := next_post st; title := t; p_content := s;
                  p_category := option_map cat_id (pd_category d);
                  p_tags := match pd_tags d with
                            | Some ts => nodup Nat.eq_dec (map tag_id ts)
                            | None => []
                            end;
                  p_created := now; p_updated := later; p_author := user |} in
      Some (set_posts st (posts st ++ [p]) (S (next_post st)), p)
  | _, _ => None
  end.

Definition update_post (st : Store) (p : Post) (now : nat) (d : PostData)
  : Store * Post :=
  let p' := {| p_id := p_id p;
               title := match pd_title d with Some t => t | None => title p end;
               p_content := match pd_content d with Some s => s | None => p_content p end;
               p_category := match pd_category d with
                             | Some c => Some (cat_id c)
                             | None => p_category p
                             end;
               p_tags := match pd_tags d with
                         | Some ts => nodup Nat.eq_dec (map tag_id ts)
                         | None => p_tags p
                         end;
               p_created := p_created p; p_updated := now; p_author := p_author p |} in
  (set_posts st (map (fun x => if p_id x =? p_id p then p' else x) (posts st))
             (next_post st), p').

(* ------------------------------------------------------------------ *)
(** ** Deletion: Django's [Collector] with [on_delete=CASCADE] *)

Definition memb (x : nat) (l : list nat) : bool := existsb (Nat.eqb x) l.

(** [Collector.collect] on comments: [Collector.add] keeps the rows of the
    batch not collected yet; if there are none the walk stops, otherwise
    the rows whose [parent] is one of the new ones ([parent] is
    [CASCADE]) are collected next. [fuel] bounds the walk. *)
Fixpoint collect (fuel : nat) (cs : list Comment) (seen batch : list nat) : list nat :=
  match fuel with
  | O => seen
  | S f =>
      let fresh := List.filter (fun i => negb (memb i seen)) batch in
      match fresh with
      | [] => seen
      | _ => collect f cs (seen ++ fresh)
               (map c_id (List.filter (fun d => match c_parent d with
                                                | Some p => memb p fresh
                                                | None => false
                                                end) cs))
      end
  end.

Definition collect_comments (cs : list Comment) (batch : list nat) : list nat :=
  collect (S (length cs)) cs [] batch.

(** [comment.delete()]: the comment and everything collected from it. *)
Definition delete_comment (st : Store) (c : Comment) : Store :=
  let doomed := collect_comments (comments st) [c_id c] in
  set_comments st (List.filter (fun d => negb (memb (c_id d) doomed)) (comments st))
               (next_comment st).

(** [post.delete()]: [Comment.post] is [CASCADE], so the post's comments
    are collected, and from them their replies. *)
Definition delete_post (st : Store) (p : Post) : Store :=
  let doomed := collect_comments (comments st)
                  (map c_id (List.filter (fun d => c_post d =? p_id p) (comments st))) in
  mkStore (users st) (categories st) (tags st)
          (List.filter (fun q => negb (p_id q =? p_id p)) (posts st))
          (List.filter (fun d => negb (memb (c_id d) doomed)) (comments st))
          (next_category st) (next_tag st) (next_post st) (next_comment st).

(* ------------------------------------------------------------------ *)
(** ** Categories and tags (CategorySerializer, TagSerializer) *)

(** [name]: a [CharField] with the model's [max_length] and the
    [UniqueValidator] that [unique=True] adds; [exclude] is the instance
    being updated. *)
Definition name_field (max_length : nat) (taken : list (nat * string))
  (exclude : option nat) (partial : bool) (v : option Value) : FieldResult string :=
  match char_field (Some max_length) partial v with
  | FOk s => if existsb (fun '(i, n) => String.eqb n s &&
                            match exclude with Some j => negb (i =? j) | None => true end)
                        taken
             then FErr "unique" else FOk s
  | other => other
  end.

Definition validate_name (max_length : nat) (taken : list (nat * string))
  (exclude : option nat) (partial : bool) (body : Body) : Validated (option string) :=
  match name_field max_length taken exclude partial (body !! "name") with
  | FOk s => VOk (Some s)
  | FSkip => VOk None
  | FErr _ => VErrs ["name"]
  | FCrash => VCrash
  end.

Definition set_categories (st : Store) (cs : list Category) (next : nat) : Store :=
  mkStore (users st) cs (tags st) (posts st) (comments st)
          next (next_tag st) (next_post st) (next_comment st).

Definition set_tags (st : Store) (ts : list Tag) (next : nat) : Store :=
  mkStore (users st) (categories st) ts (posts st) (comments st)
          (next_category st) next (next_post st) (next_comment st).

(** [category.delete()]: [Post.category] is [SET_NULL]. *)
Definition delete_category (st : Store) (c : Category) : Store :=
  mkStore (users st)
          (List.filter (fun x => negb (cat_id x =? cat_id c)) (categories st))
          (tags st)
          (map (fun p => match p_category p with
                         | Some i => if i =? cat_id c
                                     then {| p_id := p_id p; title := title p;
                                             p_content := p_content p; p_category := None;
                                             p_tags := p_tags p; p_created := p_created p;
                                             p_updated := p_updated p; p_author := p_author p |}
                                     else p
                         | None => p
                         end) (posts st))
          (comments st) (next_category st) (next_tag st) (next_post st) (next_comment st).

(** [tag.delete()]: the rows of the many-to-many table go with it. *)
Definition delete_tag (st : Store) (t : Tag) : Store :=
  mkStore (users st) (categories st)
          (List.filter (fun x => negb (tag_id x =? tag_id t)) (tags st))
          (map (fun p => {| p_id := p_id p; title := title p; p_content := p_content p;
                            p_category := p_category p;
                            p_tags := List.filter (fun i => negb (i =? tag_id t)) (p_tags p);
                            p_created := p_created p; p_updated := p_updated p;
                            p_author := p_author p |}) (posts st))
          (comments st) (next_category st) (next_tag st) (next_post st) (next_comment st).

(* ------------------------------------------------------------------ *)
(** ** Requests, permissions (permissions.py) *)

Inductive Method := GET | HEAD | OPTIONS | POST | PUT | PATCH | DELETE.

(** [permissions.SAFE_METHODS = ('GET', 'HEAD', 'OPTIONS')]. *)
Definition is_safe (m : Method) : bool :=
  match m with GET | HEAD | OPTIONS => true | _ => false end.

(** An HTTP request routed to a viewset: the authenticated user's primary
    key ([None] for [AnonymousUser]), the primary key of the detail route
    ([None] on the list route), the parsed body, the [post_id] and [page]
    query parameters, the other query parameters (those the filter
    backends read), and the clock: [now] is its first reading while the
    request is served and [tick] the time between two successive
    readings. *)
Record Request := mkRequestWith {
  method : Method;
  caller : option nat;
  target : option nat;
  data : Body;
  post_id_param : option string;
  page_param : option string;
  other_params : list (string * string);
  now : nat;
  tick : nat
}.

(** A request with no query parameter besides [post_id] and [page], whose
    clock advances by one unit between two readings. *)
Definition mkRequest (m : Method) (u t : option nat) (b : Body)
  (post_id page : option string) (n : nat) : Request :=
  mkRequestWith m u t b post_id page [] n 1.

(** [clone_request(request, method)] of DRF's metadata classes. *)
Definition clone_request (req : Request) (m : Method) : Request :=
  mkRequestWith m (caller req) (target req) (data req) (post_id_param req)
                (page_param req) (other_params req) (now req) (tick req).

Inductive Resource := RPost | RComment | RCategory | RTag.

Inductive Obj := OPost (p : Post) | OComment (c : Comment) | OCategory (c : Category) | OTag (t : Tag).

Definition obj_author (o : Obj) : option nat :=
  match o with
  | OPost p => Some (p_author p)
  | OComment c => Some (c_author c)
  | _ => None
  end.

(** What the running project decides outside the sources: its settings
    module and its database.
    - [default_permission r m u] and [default_object_permission r m u o]:
      [has_permission] and [has_object_permission] of the classes of
      [DEFAULT_PERMISSION_CLASSES], used by the viewsets that set no
      [permission_classes]; the classes DRF ships decide from the method,
      the user and the viewset's model (and the object).
    - [post_filter params st]: [filter_queryset] of the post viewset, the
      filter and search backends of [DEFAULT_FILTER_BACKENDS] applied with
      its [filterset_fields] and [search_fields] to the query parameters;
      [VOk keep] keeps the posts [keep] accepts, [VErrs] is the 400 of an
      invalid filter value, [VCrash] an uncaught exception. The comment,
      category and tag viewsets declare neither [filterset_fields] nor
      [search_fields], on which the backends the project uses do nothing.
    - [post_db_order]: the order in which the database returns the rows of
      a query; an [ORDER BY] leaves rows with equal keys in that order.
    - [atomic_requests]: the [ATOMIC_REQUESTS] setting, under which an
      uncaught exception rolls back the writes of the request. *)
Record Config := mkConfig {
  default_permission : Resource -> Method -> option nat -> bool;
  default_object_permission : Resource -> Method -> option nat -> Obj -> bool;
  post_filter : list (string * string) -> Store -> Validated (Post -> bool);
  post_db_order : list Post -> list Post;
  atomic_requests : bool
}.

(** A configuration a deployment may have: the database returns the rows
    of a query, each once, and the filter backends keep every post when the
    request has no query parameter for them. *)
Definition valid_config (cfg : Config) : Prop :=
  (forall l, Permutation (post_db_order cfg l) l) /\
  (forall st, post_filter cfg [] st = VOk (fun _ => true)).

(** Django and DRF's defaults: no [DEFAULT_PERMISSION_CLASSES] means
    [AllowAny], no [DEFAULT_FILTER_BACKENDS] means no filtering, and
    [ATOMIC_REQUESTS] is off; the database returns rows in insertion
    order. *)
Definition drf_defaults : Config :=
  mkConfig (fun _ _ _ => true) (fun _ _ _ _ => true) (fun _ _ => VOk (fun _ => true))
           (fun l => l) false.

(** [IsAuthorOrReadOnly.has_permission]. *)
Definition has_permission (req : Request) : bool :=
  is_safe (method req) || match caller req with Some _ => true | None => false end.

(** [IsAuthorOrReadOnly.has_object_permission]: [obj.author == request.user]
    compares primary keys; an [AnonymousUser] equals no user. [author] is
    [None] for objects without an author field. *)
Definition has_object_permission (req : Request) (author : option nat) : bool :=
  is_safe (method req) ||
  match caller req, author with
  | Some u, Some a => u =? a
  | _, _ => false
  end.

(** [APIView.check_permissions]: the post and comment viewsets set
    [permission_classes = [IsAuthorOrReadOnly]]; the category and tag
    viewsets set none and get the project's defaults. *)
Definition check_permissions (cfg : Config) (r : Resource) (req : Request) : bool :=
  match r with
  | RPost | RComment => has_permission req
  | RCategory | RTag => default_permission cfg r (method req) (caller req)
  end.

(** [APIView.check_object_permissions]. *)
Definition check_object_permissions (cfg : Config) (r : Resource) (req : Request) (o : Obj)
  : bool :=
  match r with
  | RPost | RComment => has_object_permission req (obj_author o)
  | RCategory | RTag => default_object_permission cfg r (method req) (caller req) o
  end.

(* ------------------------------------------------------------------ *)
(** ** Viewsets (views.py, pagination.py) *)

Inductive Payload :=
| PNone
| PComments (count : nat) (results : list Node)
| PComment (t : Node)
| PCommentRow (c : Comment)
| PPosts (count : nat) (results : list Post)
| PPost (p : Post)
| PCategories (l : list Category)
| PCategory (c : Category)
| PTags (l : list Tag)
| PTag (t : Tag).

(** The HTTP outcome: a success with its status code and body, 403
    ([PermissionDenied] / [NotAuthenticated]), 404, 400 with the failing
    fields, 405, or 500 for an uncaught exception. *)
Inductive Response :=
| Ok (status : nat) (p : Payload)
| Denied
| NotFound
| BadRequest (fields : list string)
| MethodNotAllowed
| ServerError.

Definition num_pages (count size : nat) : nat :=
  if count =? 0 then 1 else (count + size - 1) / size.

(** [PageNumberPagination.paginate_queryset]: the [page] parameter, or 1
    when it is absent or empty ([request.query_params.get('page') or 1]),
    with ["last"] for the last page, goes through [int()]; a page that is
    not an integer or is out of range is [NotFound]. *)
Definition paginate {A} (size : nat) (param : option string) (rows : list A)
  : option (list A) :=
  let np := num_pages (length rows) size in
  let n := match param with
           | None | Some "" => Some 1%Z
           | Some "last" => Some (Z.of_nat np)
           | Some s => python_int s
           end in
  match n with
  | None => None
  | Some z => if (z <? 1)%Z || (Z.of_nat np <? z)%Z then None
              else Some (firstn size (skipn ((Z.to_nat z - 1) * size) rows))
  end.

(** [CommentViewSet.get_queryset]: all comments, restricted to
    [post__id=post_id] when the parameter is present and non-empty;
    [None] is the [ValueError] Django raises for a non-integer. *)
Definition comment_queryset (st : Store) (post_id : option string) : option (list Comment) :=
  match post_id with
  | None | Some "" => Some (comments st)
  | Some s => match python_int s with
              | Some z => Some (List.filter (fun c => (Z.of_nat (c_post c) =? z)%Z) (comments st))
              | None => None
              end
  end.

Fixpoint insert_by_created (p : Post) (l : list Post) : list Post :=
  match l with
  | [] => [p]
  | q :: l' => if p_created q <? p_created p then p :: l else q :: insert_by_created p l'
  end.

(** [filter_queryset(Post.objects.all().order_by('-created_at'))]: the
    posts the filter backends keep, in the order the database returns
    them, sorted newest first by a stable sort, so that rows created at the
    same instant keep the database's order. *)
Definition post_queryset (cfg : Config) (keep : Post -> bool) (st : Store) : list Post :=
  fold_right insert_by_created [] (rev (post_db_order cfg (List.filter keep (posts st)))).

Section Views.

Variable cfg : Config.
Variable query_order : list Comment -> list Comment.
Variable fuel : nat.

(** [GenericAPIView.get_object]: the detail primary key looked up in the
    filtered queryset of the viewset. [VOk None] is the [Http404], [VErrs]
    the 400 of the filter backends and [VCrash] an exception raised by the
    queryset itself. *)
Definition get_object (r : Resource) (st : Store) (req : Request) (i : nat)
  : Validated (option Obj) :=
  match r with
  | RPost =>
      match post_filter cfg (other_params req) st with
      | VOk keep => VOk (option_map OPost (List.find (fun p => p_id p =? i)
                                                     (List.filter keep (posts st))))
      | VErrs es => VErrs es
      | VCrash => VCrash
      end
  | RComment => match comment_queryset st (post_id_param req) with
                | Some rows => VOk (option_map OComment (List.find (fun c => c_id c =? i) rows))
                | None => VCrash
                end
  | RCategory => VOk (option_map OCategory (List.find (fun c => cat_id c =? i) (categories st)))
  | RTag => VOk (option_map OTag (List.find (fun t => tag_id t =? i) (tags st)))
  end.

(** [ListModelMixin.list]. *)
Definition list_action (r : Resource) (st : Store) (req : Request) : Response :=
  match r with
  | RComment =>
      match comment_queryset st (post_id_param req) with
      | None => ServerError
      | Some rows =>
          let rows := query_order rows in
          match paginate 20 (page_param req) rows with
          | None => NotFound
          | Some page => match map_opt (serialize query_order fuel st) page with
                         | Some ns => Ok 200 (PComments (length rows) ns)
                         | None => ServerError
                         end
          end
      end
  | RPost =>
      match post_filter cfg (other_params req) st with
      | VOk keep =>
          let rows := post_queryset cfg keep st in
          match paginate 10 (page_param req) rows with
          | None => NotFound
          | Some page => Ok 200 (PPosts (length rows) page)
          end
      | VErrs es => BadRequest es
      | VCrash => ServerError
      end
  | RCategory => Ok 200 (PCategories (categories st))
  | RTag => Ok 200 (PTags (tags st))
  end.

Definition outcome_of {A} (v : Validated A) (k : A -> Store * Response) (st : Store)
  : Store * Response :=
  match v with
  | VOk a => k a
  | VErrs es => (st, BadRequest es)
  | VCrash => (st, ServerError)
  end.

(** [CreateModelMixin.create]: validate, then [perform_create], which reads
    the clock twice ([auto_now_add], then [auto_now]); the response body is
    [serializer.data]. For a comment that is the saved row with its
    [replies], which are empty: no row can reference a key that did not
    exist before the save. *)
Definition create_action (r : Resource) (st : Store) (req : Request) : Store * Response :=
  match r with
  | RComment =>
      outcome_of (validate_comment st false (data req)) (fun d =>
        match caller req with
        | None => (st, ServerError)
        | Some u => match create_comment st u (now req) (now req + tick req) d with
                    | Some (st', c) => (st', Ok 201 (PCommentRow c))
                    | None => (st, ServerError)
                    end
        end) st
  | RPost =>
      outcome_of (validate_post st false (data req)) (fun d =>
        match caller req with
        | None => (st, ServerError)
        | Some u => match create_post st u (now req) (now req + tick req) d with
                    | Some (st', p) => (st', Ok 201 (PPost p))
                    | None => (st, ServerError)
                    end
        end) st
  | RCategory =>
      outcome_of (validate_name 100 (map (fun c => (cat_id c, cat_name c)) (categories st))
                                None false (data req)) (fun n =>
        let c := mkCategory (next_category st) (match n with Some s => s | None => "" end) in
        (set_categories st (categories st ++ [c]) (S (next_category st)), Ok 201 (PCategory c))) st
  | RTag =>
      outcome_of (validate_name 50 (map (fun t => (tag_id t, tag_name t)) (tags st))
                                None false (data req)) (fun n =>
        let t := mkTag (next_tag st) (match n with Some s => s | None => "" end) in
        (set_tags st (tags st ++ [t]) (S (next_tag st)), Ok 201 (PTag t))) st
  end.

(** [RetrieveModelMixin.retrieve]. *)
Definition retrieve_action (st : Store) (o : Obj) : Response :=
  match o with
  | OComment c => match serialize query_order fuel st c with
                  | Some t => Ok 200 (PComment t)
                  | None => ServerError
                  end
  | OPost p => Ok 200 (PPost p)
  | OCategory c => Ok 200 (PCategory c)
  | OTag t => Ok 200 (PTag t)
  end.

(** [UpdateModelMixin.update] ([partial] for PATCH): validate, save, then
    answer [serializer.data], for a comment its recursive representation
    read back after the save. A [RecursionError] there is raised after the
    save, which only [ATOMIC_REQUESTS] rolls back. *)
Definition update_action (st : Store) (req : Request) (partial : bool) (o : Obj)
  : Store * Response :=
  match o with
  | OComment c =>
      outcome_of (validate_comment st partial (data req)) (fun d =>
        let '(st', c') := update_comment st c (now req) d in
        match serialize query_order fuel st' c' with
        | Some t => (st', Ok 200 (PComment t))
        | None => (if atomic_requests cfg then st else st', ServerError)
        end) st
  | OPost p =>
      outcome_of (validate_post st partial (data req)) (fun d =>
        let '(st', p') := update_post st p (now req) d in (st', Ok 200 (PPost p'))) st
  | OCategory c =>
      outcome_of (validate_name 100 (map (fun x => (cat_id x, cat_name x)) (categories st))
                                (Some (cat_id c)) partial (data req)) (fun n =>
        let c' := mkCategory (cat_id c) (match n with Some s => s | None => cat_name c end) in
        (set_categories st (map (fun x => if cat_id x =? cat_id c then c' else x) (categories st))
                        (next_category st), Ok 200 (PCategory c'))) st
  | OTag t =>
      outcome_of (validate_name 50 (map (fun x => (tag_id x, tag_name x)) (tags st))
                                (Some (tag_id t)) partial (data req)) (fun n =>
        let t' := mkTag (tag_id t) (match n with Some s => s | None => tag_name t end) in
        (set_tags st (map (fun x => if tag_id x =? tag_id t then t' else x) (tags st))
                  (next_tag st), Ok 200 (PTag t'))) st
  end.

(** [DestroyModelMixin.destroy]. *)
Definition destroy_action (st : Store) (o : Obj) : Store :=
  match o with
  | OComment c => delete_comment st c
  | OPost p => delete_post st p
  | OCategory c => delete_category st c
  | OTag t => delete_tag st t
  end.

(** [SimpleMetadata.determine_metadata] for OPTIONS on a detail route:
    [determine_actions] checks the permissions of a PUT clone of the
    request and calls [get_object]; it catches [APIException],
    [PermissionDenied] and [Http404], not the [ValueError] of a malformed
    [post_id]. On the list route it calls no [get_object]. *)
Definition options_detail (r : Resource) (st : Store) (req : Request) (i : nat) : Response :=
  let req' := clone_request req PUT in
  if check_permissions cfg r req' then
    match get_object r st req' i with
    | VCrash => ServerError
    | _ => Ok 200 PNone
    end
  else Ok 200 PNone.

(** [APIView.dispatch] on the router's routes: [initial] checks the
    permissions before the handler is chosen; detail handlers call
    [get_object], which checks the object permissions. *)
Definition handle (r : Resource) (st : Store) (req : Request) : Store * Response :=
  if negb (check_permissions cfg r req) then (st, Denied) else
  match target req with
  | None =>
      match method req with
      | GET | HEAD => (st, list_action r st req)
      | POST => create_action r st req
      | OPTIONS => (st, Ok 200 PNone)
      | _ => (st, MethodNotAllowed)
      end
  | Some i =>
      match method req with
      | POST => (st, MethodNotAllowed)
      | OPTIONS => (st, options_detail r st req i)
      | m =>
          match get_object r st req i with
          | VCrash => (st, ServerError)
          | VErrs es => (st, BadRequest es)
          | VOk None => (st, NotFound)
          | VOk (Some o) =>
              if negb (check_object_permissions cfg r req o) then (st, Denied) else
              match m with
              | PUT => update_action st req false o
              | PATCH => update_action st req true o
              | DELETE => (destroy_action st o, Ok 204 PNone)
              | _ => (st, retrieve_action st o)
              end
          end
      end
  end.

End Views.

(* ------------------------------------------------------------------ *)
(** ** Derived notions used in the statements *)

(** The same request with another body. *)
Definition with_data (req : Request) (b : Body) : Request :=
  mkRequestWith (method req) (caller req) (target req) b (post_id_param req)
                (page_param req) (other_params req) (now req) (tick req).


(** A query order is one the database may use: it returns the matching
    rows, each once. *)
Definition valid_order (query_order : list Comment -> list Comment) : Prop :=
  forall l, Permutation (query_order l) l.

(** The comment table as the creation path leaves it: primary keys are
    unique and below the sequence, and a comment's parent was created
    strictly before it (its key is smaller). *)
Definition acyclic_store (st : Store) : Prop :=
  List.NoDup (comment_ids st) /\
  forall d, In d (comments st) ->
    c_id d < next_comment st /\ forall p, c_parent d = Some p -> p < c_id d.

(** The rows of the table whose key is not collected yet. *)
Definition unseen (cs : list Comment) (seen : list nat) : nat :=
  length (List.filter (fun d => negb (memb (c_id d) seen)) cs).


(** A table of named rows ([Category], [Tag]): primary keys unique and
    below the table's sequence, and [name] unique ([unique=True]). *)
Definition unique_table {A} (key : A -> nat) (name : A -> string) (rows : list A) (next : nat)
  : Prop :=
  List.NoDup (map key rows) /\ List.NoDup (map name rows) /\
  forall x, In x rows -> key x < next.

Definition names_ok (st : Store) : Prop :=
  unique_table cat_id cat_name (categories st) (next_category st) /\
  unique_table tag_id tag_name (tags st) (next_tag st).

(** Sample data: user 1 ("alice") writes post 1 "Intro"; comment 1 is a
    top-level comment, 2 replies to 1 and 3 replies to 2. *)
Definition alice : User := mkUser 1 "alice".
Definition bob : User := mkUser 2 "bob".
Definition intro : Post := mkPost 1 "Intro" "hello" (Some 1) [1] 0 0 1.
Definition cm1 : Comment := mkComment 1 1 "root" 1 None 1 1.
Definition cm2 : Comment := mkComment 2 1 "reply" 2 (Some 1) 2 2.
Definition cm3 : Comment := mkComment 3 1 "reply to reply" 1 (Some 2) 3 3.

Definition thread_store : Store :=
  mkStore [alice; bob] [mkCategory 1 "Tech"] [mkTag 1 "News"] [intro]
          [cm1; cm2; cm3] 2 2 2 4.

(** Two posts, and a comment on the first. *)
Definition second : Post := mkPost 2 "Other" "more" None [] 1 1 2.

Definition two_posts_store : Store :=
  mkStore [alice; bob] [] [] [intro; second] [cm1] 1 1 3 2.

(** Two posts sharing the title "Intro". *)
Definition same_title_store : Store :=
  mkStore [alice; bob] [] [] [intro; mkPost 2 "Intro" "again" None [] 1 1 2] [] 1 1 3 1.

(** Two replies to comment 1, created one after the other. *)
Definition siblings_store : Store :=
  mkStore [alice; bob] [] [] [intro]
          [cm1; cm2; mkComment 3 1 "second reply" 1 (Some 1) 3 3] 1 1 2 4.




Definition get_req (caller : option nat) (target : option nat) (post_id : option string) : Request :=
  mkRequest GET caller target ∅ post_id None 10.

(* ================================================================== *)
(** * Properties *)

(* ------------------------------------------------------------------ *)
(** ** The author of a created row *)

Lemma validate_comment_body_congr st partial (b1 b2 : Body) :
  (forall k, k <> "author" -> b1 !! k = b2 !! k) ->
  validate_comment st partial b1 = validate_comment st partial b2.
Proof.
  intros H. unfold validate_comment.
  rewrite (H "post"), (H "content"), (H "parent") by discriminate. reflexivity.
Qed.

Lemma validate_post_body_congr st partial (b1 b2 : Body) :
  (forall k, k <> "author" -> b1 !! k = b2 !! k) ->
  validate_post st partial b1 = validate_post st partial b2.
Proof.
  intros H. unfold validate_post.
  rewrite (H "title"), (H "content"), (H "category"), (H "tag") by discriminate.
  reflexivity.
Qed.

Lemma validate_name_body_congr m taken ex partial (b1 b2 : Body) :
  (forall k, k <> "author" -> b1 !! k = b2 !! k) ->
  validate_name m taken ex partial b1 = validate_name m taken ex partial b2.
Proof.
  intros H. unfold validate_name. rewrite (H "name") by discriminate. reflexivity.
Qed.

(** No handler reads the ["author"] key of the body. *)
Lemma handle_body_congr cfg qo fuel r st req (b1 b2 : Body) :
  (forall k, k <> "author" -> b1 !! k = b2 !! k) ->
  handle cfg qo fuel r st (with_data req b1) = handle cfg qo fuel r st (with_data req b2).
Proof.
  intros H. destruct req as [m cl tg b pid pg op nw tk]. unfold with_data, handle.
  unfold create_action, update_action, list_action, options_detail, clone_request, get_object.
  destruct r;
    cbn [check_permissions check_object_permissions has_permission has_object_permission
         method caller data target post_id_param page_param other_params now tick];
    unfold validate_comment, validate_post, validate_name;
    rewrite ?(H "post"), ?(H "content"), ?(H "parent"), ?(H "title"),
            ?(H "category"), ?(H "tag"), ?(H "name") by discriminate;
    reflexivity.
Qed.

Lemma insert_delete_author_agree (b : Body) (v : Value) :
  forall k, k <> "author" -> (<["author" := v]> b) !! k = (delete "author" b) !! k.
Proof.
  intros k Hk. rewrite lookup_insert_ne by congruence.
  rewrite lookup_delete_ne by congruence. reflexivity.
Qed.

(** C3 *)
(** Claim C3: a post or a comment created by an authenticated caller is
    stored with that caller as its author, and the outcome of the request
    is the same whether or not the body carries an ["author"] value. *)
Theorem create_author_is_caller cfg qo fuel st req u v :
  method req = POST -> target req = None -> caller req = Some u ->
  (forall st' c, handle cfg qo fuel RComment st req = (st', Ok 201 (PCommentRow c)) ->
                 c_author c = u /\ In c (comments st')) /\
  (forall st' p, handle cfg qo fuel RPost st req = (st', Ok 201 (PPost p)) ->
                 p_author p = u /\ In p (posts st')) /\
  (forall r, handle cfg qo fuel r st (with_data req (<["author" := v]> (data req)))
             = handle cfg qo fuel r st (with_data req (delete "author" (data req)))).
Proof.
  intros Hm Ht Hc. destruct req as [m cl tg b pid pg op nw tk]; simpl in *; subst.
  split; [|split].
  - intros st' c E. unfold handle, check_permissions in E; simpl in E.
    unfold create_action, outcome_of in E.
    destruct (validate_comment st false b) as [d| |]; try discriminate.
    destruct (create_comment st u nw (nw + tk) d) as [[st1 c1]|] eqn:Ec; try discriminate.
    inversion E; subst st1 c1; clear E.
    unfold create_comment in Ec. destruct (cd_post d), (cd_content d); try discriminate.
    inversion Ec; subst. simpl. split; [reflexivity|].
    apply in_or_app; right; left; reflexivity.
  - intros st' p E. unfold handle, check_permissions in E; simpl in E.
    unfold create_action, outcome_of in E.
    destruct (validate_post st false b) as [d| |]; try discriminate.
    destruct (create_post st u nw (nw + tk) d) as [[st1 p1]|] eqn:Ep; try discriminate.
    inversion E; subst st1 p1; clear E.
    unfold create_post in Ep. destruct (pd_title d), (pd_content d); try discriminate.
    inversion Ep; subst. simpl. split; [reflexivity|].
    apply in_or_app; right; left; reflexivity.
  - intros r. apply handle_body_congr, insert_delete_author_agree.
Qed.

Lemma create_author_is_caller_witness :
  (method (mkRequest POST (Some 2) None
             (<["post" := VStr "Intro"]> (<["content" := VStr "hi"]>
               (<["author" := VInt 1]> ∅))) None None 7) = POST /\
   target (mkRequest POST (Some 2) None
             (<["post" := VStr "Intro"]> (<["content" := VStr "hi"]>
               (<["author" := VInt 1]> ∅))) None None 7) = None /\
   caller (mkRequest POST (Some 2) None
             (<["post" := VStr "Intro"]> (<["content" := VStr "hi"]>
               (<["author" := VInt 1]> ∅))) None None 7) = Some 2) /\
  ((forall st' c, handle drf_defaults (fun l => l) 5 RComment thread_store
                    (mkRequest POST (Some 2) None
                      (<["post" := VStr "Intro"]> (<["content" := VStr "hi"]>
                        (<["author" := VInt 1]> ∅))) None None 7)
                  = (st', Ok 201 (PCommentRow c)) ->
                  c_author c = 2 /\ In c (comments st')) /\
   (forall st' p, handle drf_defaults (fun l => l) 5 RPost thread_store
                    (mkRequest POST (Some 2) None
                      (<["post" := VStr "Intro"]> (<["content" := VStr "hi"]>
                        (<["author" := VInt 1]> ∅))) None None 7)
                  = (st', Ok 201 (PPost p)) ->
                  p_author p = 2 /\ In p (posts st')) /\
   (forall r, handle drf_defaults (fun l => l) 5 r thread_store
                (with_data (mkRequest POST (Some 2) None
                  (<["post" := VStr "Intro"]> (<["content" := VStr "hi"]>
                    (<["author" := VInt 1]> ∅))) None None 7) (<["author" := VInt 1]>
                  (data (mkRequest POST (Some 2) None
                    (<["post" := VStr "Intro"]> (<["content" := VStr "hi"]>
                      (<["author" := VInt 1]> ∅))) None None 7))))
              = handle drf_defaults (fun l => l) 5 r thread_store
                (with_data (mkRequest POST (Some 2) None
                  (<["post" := VStr "Intro"]> (<["content" := VStr "hi"]>
                    (<["author" := VInt 1]> ∅))) None None 7) (delete "author"
                  (data (mkRequest POST (Some 2) None
                    (<["post" := VStr "Intro"]> (<["content" := VStr "hi"]>
                      (<["author" := VInt 1]> ∅))) None None 7)))))).
Proof.
  split; [split; [reflexivity | split; reflexivity] |].
  apply create_author_is_caller; reflexivity.
Defined.

(* ------------------------------------------------------------------ *)
(** ** The author-or-read-only gate *)

Lemma list_action_not_denied cfg qo fuel r st req : list_action cfg qo fuel r st req <> Denied.
Proof.
  destruct r; unfold list_action; repeat case_match; discriminate.
Qed.

Lemma retrieve_action_not_denied qo fuel st o : retrieve_action qo fuel st o <> Denied.
Proof.
  destruct o; unfold retrieve_action; repeat case_match; discriminate.
Qed.

Lemma outcome_of_not_denied {A} (v : Validated A) k st :
  (forall a, snd (k a) <> Denied) -> snd (outcome_of v k st) <> Denied.
Proof. intros H. destruct v; simpl; [apply H | discriminate | discriminate]. Qed.

Lemma create_action_not_denied r st req : snd (create_action r st req) <> Denied.
Proof.
  destruct r; unfold create_action; apply outcome_of_not_denied; intros a;
    repeat case_match; discriminate.
Qed.

Lemma update_action_not_denied cfg qo fuel st req partial o :
  snd (update_action cfg qo fuel st req partial o) <> Denied.
Proof.
  destruct o; unfold update_action; apply outcome_of_not_denied; intros a;
    repeat case_match; discriminate.
Qed.

Lemma options_detail_not_denied cfg r st req i : options_detail cfg r st req i <> Denied.
Proof. unfold options_detail. repeat case_match; discriminate. Qed.

(** Once the permission checks pass, no handler answers 403. *)
Lemma handle_denied_only_by_checks cfg qo fuel r st req :
  check_permissions cfg r req = true ->
  (forall i o, target req = Some i -> get_object cfg r st req i = VOk (Some o) ->
               check_object_permissions cfg r req o = true) ->
  snd (handle cfg qo fuel r st req) <> Denied.
Proof.
  intros Hp Ho. unfold handle. rewrite Hp. simpl.
  destruct (target req) as [i|] eqn:Ht.
  - destruct (method req); try discriminate; try apply options_detail_not_denied;
      destruct (get_object cfg r st req i) as [[o|]|es|] eqn:Eg; try discriminate;
      rewrite (Ho i o eq_refl Eg); simpl;
      solve [ apply retrieve_action_not_denied | apply update_action_not_denied
            | discriminate ].
  - destruct (method req); try discriminate;
      solve [ apply list_action_not_denied | apply create_action_not_denied ].
Qed.

(** C4 *)
(** Claim C4: on the post and comment endpoints, a safe method (GET,
    HEAD, OPTIONS) is never refused by the gate, whoever the caller; a
    mutating method from an anonymous caller is refused with 403 before
    anything is loaded, and an update or delete of an existing row by an
    authenticated caller other than its stored author is refused with 403;
    in both refusals the store is returned unchanged. [Denied] is its own
    outcome, distinct from [BadRequest] and [NotFound]. *)
Theorem author_or_read_only_gate cfg qo fuel r st req :
  r = RPost \/ r = RComment ->
  (is_safe (method req) = true -> snd (handle cfg qo fuel r st req) <> Denied) /\
  (is_safe (method req) = false -> caller req = None ->
     handle cfg qo fuel r st req = (st, Denied)) /\
  (forall u i o,
     method req = PUT \/ method req = PATCH \/ method req = DELETE ->
     caller req = Some u -> target req = Some i ->
     get_object cfg r st req i = VOk (Some o) -> obj_author o <> Some u ->
     handle cfg qo fuel r st req = (st, Denied)).
Proof.
  intros Hr. split; [|split].
  - intros Hs. apply handle_denied_only_by_checks.
    + destruct Hr; subst; unfold check_permissions, has_permission; simpl; rewrite Hs; reflexivity.
    + intros i o _ _. destruct Hr; subst; unfold check_object_permissions, has_object_permission; simpl;
        rewrite Hs; reflexivity.
  - intros Hs Hc. unfold handle.
    replace (check_permissions cfg r req) with false; [reflexivity|].
    destruct Hr; subst; unfold check_permissions, has_permission; simpl; rewrite Hs, Hc; reflexivity.
  - intros u i o Hm Hc Ht Hg Ha. unfold handle.
    replace (check_permissions cfg r req) with true
      by (destruct Hr; subst; unfold check_permissions, has_permission; simpl; rewrite Hc, orb_true_r;
          reflexivity).
    simpl. rewrite Ht.
    assert (Hop : check_object_permissions cfg r req o = false).
    { assert (Hsafe : is_safe (method req) = false)
        by (destruct Hm as [Hm|[Hm|Hm]]; rewrite Hm; reflexivity).
      destruct Hr; subst; unfold check_object_permissions, has_object_permission; simpl; rewrite Hsafe, Hc;
        simpl; destruct (obj_author o) as [a|]; try reflexivity;
        destruct (Nat.eqb_spec u a); subst; first [congruence | reflexivity]. }
    destruct Hm as [Hm|[Hm|Hm]]; rewrite Hm, Hg, Hop; reflexivity.
Qed.

(** Bob (user 2) patches Alice's post "Intro": refused, store unchanged. *)
Lemma author_or_read_only_gate_witness :
  (RPost = RPost \/ RPost = RComment) /\
  handle drf_defaults (fun l => l) 5 RPost thread_store
    (mkRequest PATCH (Some 2) (Some 1) (<["title" := VStr "Hijacked"]> ∅) None None 7)
  = (thread_store, Denied).
Proof.
  split; [left; reflexivity|].
  apply (proj2 (proj2 (author_or_read_only_gate drf_defaults (fun l => l) 5 RPost thread_store
    (mkRequest PATCH (Some 2) (Some 1) (<["title" := VStr "Hijacked"]> ∅) None None 7)
    (or_introl eq_refl))) 2 1 (OPost intro)).
  - right; left; reflexivity.
  - reflexivity.
  - reflexivity.
  - reflexivity.
  - simpl. congruence.
Defined.

(* ------------------------------------------------------------------ *)
(** ** The parent of a new comment may belong to another post *)

(** C6 *)
(** Claim C6: there is a comment-creation request whose [parent] is an
    existing comment of one post while its [post] names another post, and
    the comment is created (201) without any validation error. *)
Theorem cross_post_parent_accepted cfg qo fuel :
  exists st req st' c q,
    handle cfg qo fuel RComment st req = (st', Ok 201 (PCommentRow c)) /\
    In c (comments st') /\
    In q (comments st) /\ c_parent c = Some (c_id q) /\ c_post q <> c_post c.
Proof.
  exists two_posts_store,
    (mkRequest POST (Some 2) None
       (<["post" := VStr "Other"]> (<["content" := VStr "off topic"]>
         (<["parent" := VInt 1]> ∅))) None None 9),
    (mkStore [alice; bob] [] [] [intro; second]
       [cm1; mkComment 2 2 "off topic" 2 (Some 1) 9 10] 1 1 3 3),
    (mkComment 2 2 "off topic" 2 (Some 1) 9 10), cm1.
  split; [vm_compute; reflexivity|].
  split; [simpl; right; left; reflexivity|].
  split; [simpl; left; reflexivity|].
  split; [reflexivity | discriminate].
Qed.

(* ------------------------------------------------------------------ *)
(** ** Cascading deletion *)

Lemma memb_In x l : memb x l = true <-> In x l.
Proof.
  unfold memb. rewrite existsb_exists. split.
  - intros [y [Hy E]]. apply Nat.eqb_eq in E. subst. exact Hy.
  - intros H. exists x. split; [exact H | apply Nat.eqb_refl].
Qed.

Lemma find_comment_some st y d :
  find_comment st y = Some d -> In d (comments st) /\ c_id d = y.
Proof.
  unfold find_comment. intros H. apply find_some in H as [H1 H2].
  apply Nat.eqb_eq in H2. auto.
Qed.

Lemma unseen_le cs seen : unseen cs seen <= length cs.
Proof.
  unfold unseen. induction cs as [|d cs IH]; simpl; [lia|].
  destruct (negb (memb (c_id d) seen)); simpl; lia.
Qed.

Lemma unseen_mono cs seen seen' :
  (forall x, In x seen -> In x seen') -> unseen cs seen' <= unseen cs seen.
Proof.
  intros Hs. unfold unseen. induction cs as [|d cs IH]; simpl; [lia|].
  destruct (memb (c_id d) seen') eqn:E1, (memb (c_id d) seen) eqn:E2; simpl; try lia.
  apply memb_In, Hs, memb_In in E2. congruence.
Qed.

Lemma unseen_decrease cs seen seen' d :
  (forall x, In x seen -> In x seen') ->
  In d cs -> In (c_id d) seen' -> ~ In (c_id d) seen ->
  unseen cs seen' < unseen cs seen.
Proof.
  intros Hs Hd H1 H2. unfold unseen in *. induction cs as [|e cs IH]; simpl; [contradiction|].
  destruct Hd as [->|Hd].
  - apply memb_In in H1. rewrite H1. simpl.
    assert (memb (c_id d) seen = false)
      by (destruct (memb (c_id d) seen) eqn:E; [apply memb_In in E; contradiction | reflexivity]).
    rewrite H. simpl. pose proof (unseen_mono cs seen seen' Hs). unfold unseen in H0. lia.
  - specialize (IH Hd).
    destruct (memb (c_id e) seen') eqn:E1, (memb (c_id e) seen) eqn:E2; simpl; try lia.
    apply memb_In, Hs, memb_In in E2. congruence.
Qed.

(** What [collect] computes: it contains the batch, and it is closed under
    "a row whose parent is collected is collected". *)
Lemma collect_closed cs fuel : forall seen batch,
  (forall i, In i batch -> In i (map c_id cs)) ->
  unseen cs seen < fuel ->
  (forall e p, In e cs -> c_parent e = Some p -> In p seen ->
               In (c_id e) seen \/ In (c_id e) batch) ->
  (forall i, In i seen -> In i (collect fuel cs seen batch)) /\
  (forall i, In i batch -> In i (collect fuel cs seen batch)) /\
  (forall e p, In e cs -> c_parent e = Some p -> In p (collect fuel cs seen batch) ->
               In (c_id e) (collect fuel cs seen batch)).
Proof.
  induction fuel as [|f IH]; intros seen batch Hb Hu Hinv; [lia|].
  simpl. remember (List.filter (fun i => negb (memb i seen)) batch) as fresh eqn:Efr.
  assert (Hfresh : forall i, In i fresh <-> In i batch /\ ~ In i seen).
  { intros i. rewrite Efr, filter_In. rewrite <- (memb_In i seen).
    destruct (memb i seen); simpl; intuition congruence. }
  assert (Hbatch : forall i, In i batch -> In i seen \/ In i fresh).
  { intros i Hi. destruct (memb i seen) eqn:E; [left; apply memb_In, E|].
    right. apply Hfresh. split; [exact Hi|]. rewrite <- (memb_In i seen). congruence. }
  clear Efr. destruct fresh as [|x xs].
  - split; [auto|]. split.
    + intros i Hi. destruct (Hbatch i Hi) as [H|[]]; exact H.
    + intros e p He Hp Hin. destruct (Hinv e p He Hp Hin) as [H|H]; [exact H|].
      destruct (Hbatch _ H) as [H'|[]]; exact H'.
  - set (batch' := map c_id (List.filter (fun d => match c_parent d with
                                                   | Some p => memb p (x :: xs)
                                                   | None => false
                                                   end) cs)).
    assert (Hx : In x batch /\ ~ In x seen) by (apply Hfresh; left; reflexivity).
    destruct Hx as [Hxb Hxs].
    destruct (IH (seen ++ x :: xs) batch') as [IH1 [IH2 IH3]].
    + intros i Hi. unfold batch' in Hi. apply in_map_iff in Hi as [d [<- Hd]].
      apply filter_In in Hd. apply in_map, Hd.
    + pose proof (Hb x Hxb) as Hxi. apply in_map_iff in Hxi as [d [Hdx Hd]].
      assert (unseen cs (seen ++ x :: xs) < unseen cs seen).
      { apply (unseen_decrease cs seen _ d).
        - intros y Hy. apply in_or_app; left; exact Hy.
        - exact Hd.
        - rewrite Hdx. apply in_or_app; right; left; reflexivity.
        - rewrite Hdx. exact Hxs. }
      lia.
    + intros e p He Hp Hin. apply in_app_or in Hin as [Hin|Hin].
      * destruct (Hinv e p He Hp Hin) as [H|H].
        -- left. apply in_or_app; left; exact H.
        -- destruct (Hbatch _ H) as [H'|H']; left; apply in_or_app; [left|right]; exact H'.
      * right. unfold batch'. apply in_map. apply filter_In. split; [exact He|].
        rewrite Hp. apply memb_In, Hin.
    + split; [|split].
      * intros i Hi. apply IH1, in_or_app; left; exact Hi.
      * intros i Hi. apply IH1. destruct (Hbatch i Hi) as [H|H]; apply in_or_app;
          [left | right]; exact H.
      * exact IH3.
Qed.

Lemma collect_comments_closed cs batch :
  (forall i, In i batch -> In i (map c_id cs)) ->
  (forall i, In i batch -> In i (collect_comments cs batch)) /\
  (forall e p, In e cs -> c_parent e = Some p -> In p (collect_comments cs batch) ->
               In (c_id e) (collect_comments cs batch)).
Proof.
  intros Hb. unfold collect_comments.
  destruct (collect_closed cs (S (length cs)) [] batch) as [_ [H2 H3]].
  - exact Hb.
  - pose proof (unseen_le cs []). lia.
  - intros e p _ _ [].
  - auto.
Qed.

(** A set closed under the parent relation contains every comment whose
    chain of parents reaches one of its members. *)
Lemma closed_contains_descendants st (R : list nat) :
  (forall e p, In e (comments st) -> c_parent e = Some p -> In p R -> In (c_id e) R) ->
  forall k x i, iter_parent st k x = Some i -> In i R -> In x R.
Proof.
  intros Hcl k. induction k as [|k IH]; intros x i Hk Hi; simpl in Hk.
  - inversion Hk; subst; exact Hi.
  - unfold parent_of in Hk. destruct (find_comment st x) as [e|] eqn:Ef; [|discriminate].
    destruct (c_parent e) as [p|] eqn:Ep; [|discriminate].
    apply find_comment_some in Ef as [He <-].
    apply (Hcl e p He Ep). exact (IH p i Hk Hi).
Qed.

Lemma comment_queryset_sub st pid rows c :
  comment_queryset st pid = Some rows -> In c rows -> In c (comments st).
Proof.
  unfold comment_queryset. intros H Hc.
  destruct pid as [s|]; [|inversion H; subst; exact Hc].
  destruct (String.eqb s "") eqn:Es.
  - apply String.eqb_eq in Es; subst. inversion H; subst; exact Hc.
  - destruct s as [|a s]; [discriminate|].
    destruct (python_int (String a s)); inversion H; subst.
    apply filter_In in Hc; apply Hc.
Qed.

Lemma handle_delete_inv cfg qo fuel r st req i st' :
  method req = DELETE -> target req = Some i ->
  handle cfg qo fuel r st req = (st', Ok 204 PNone) ->
  exists o, get_object cfg r st req i = VOk (Some o) /\ st' = destroy_action st o.
Proof.
  intros Hm Ht H. unfold handle in H. rewrite Ht, Hm in H.
  destruct (check_permissions cfg r req); simpl in H; [|discriminate].
  destruct (get_object cfg r st req i) as [[o|]|es|]; try discriminate.
  destruct (check_object_permissions cfg r req o); simpl in H; [|discriminate].
  inversion H; subst. eauto.
Qed.

(** C8 *)
(** Claim C8: a successful DELETE of a post removes from the store every
    comment of that post and every comment whose chain of parents reaches
    one of them; a successful DELETE of a comment removes from the store
    every comment whose chain of parents contains it, and itself
    ([iter_parent st 0 x = Some x]). *)
Theorem delete_cascades cfg qo fuel st req i st' :
  method req = DELETE -> target req = Some i ->
  (handle cfg qo fuel RPost st req = (st', Ok 204 PNone) ->
     (forall q, In q (posts st') -> p_id q <> i) /\
     (forall d, In d (comments st') -> c_post d <> i) /\
     (forall d e k, In d (comments st') -> In e (comments st) -> c_post e = i ->
        iter_parent st k (c_id d) <> Some (c_id e))) /\
  (handle cfg qo fuel RComment st req = (st', Ok 204 PNone) ->
     forall d k, In d (comments st') -> iter_parent st k (c_id d) <> Some i).
Proof.
  intros Hm Ht. split.
  - intros H. destruct (handle_delete_inv _ _ _ _ _ _ _ _ Hm Ht H) as [o [Hg ->]].
    simpl in Hg. destruct (post_filter cfg (other_params req) st) as [keep| |];
      try discriminate.
    destruct (List.find (fun p => p_id p =? i) (List.filter keep (posts st))) as [p|] eqn:Ep;
      [|discriminate].
    inversion Hg; subst o; clear Hg. simpl.
    apply find_some in Ep as [_ Epi]. apply Nat.eqb_eq in Epi.
    set (batch := map c_id (List.filter (fun d => c_post d =? p_id p) (comments st))).
    destruct (collect_comments_closed (comments st) batch) as [Hb Hcl].
    { intros x Hx. unfold batch in Hx. apply in_map_iff in Hx as [d [<- Hd]].
      apply in_map. apply filter_In in Hd; apply Hd. }
    unfold delete_post; simpl. fold batch. split; [|split].
    + intros q Hq. apply filter_In in Hq as [_ Hq].
      destruct (Nat.eqb_spec (p_id q) (p_id p)); [discriminate | congruence].
    + intros d Hd Hdi. apply filter_In in Hd as [Hd Hn].
      assert (In (c_id d) (collect_comments (comments st) batch)).
      { apply Hb. unfold batch. apply in_map, filter_In. split; [exact Hd|].
        apply Nat.eqb_eq. congruence. }
      apply memb_In in H0. rewrite H0 in Hn. discriminate.
    + intros d e k Hd He Hei Hk. apply filter_In in Hd as [Hd Hn].
      assert (In (c_id d) (collect_comments (comments st) batch)).
      { apply (closed_contains_descendants st _ Hcl k (c_id d) (c_id e) Hk).
        apply Hb. unfold batch. apply in_map, filter_In. split; [exact He|].
        apply Nat.eqb_eq. congruence. }
      apply memb_In in H0. rewrite H0 in Hn. discriminate.
  - intros H. destruct (handle_delete_inv _ _ _ _ _ _ _ _ Hm Ht H) as [o [Hg ->]].
    simpl in Hg. destruct (comment_queryset st (post_id_param req)) as [rows|] eqn:Eq;
      [|discriminate].
    destruct (List.find (fun c => c_id c =? i) rows) as [c|] eqn:Ec; [|discriminate].
    inversion Hg; subst o; clear Hg.
    apply find_some in Ec as [Hc Eci]. apply Nat.eqb_eq in Eci.
    pose proof (comment_queryset_sub _ _ _ _ Eq Hc) as Hcs.
    destruct (collect_comments_closed (comments st) [c_id c]) as [Hb Hcl].
    { intros x [<-|[]]. apply in_map, Hcs. }
    intros d k Hd Hk. simpl in Hd. unfold delete_comment in Hd; simpl in Hd.
    apply filter_In in Hd as [Hd Hn].
    assert (In (c_id d) (collect_comments (comments st) [c_id c])).
    { apply (closed_contains_descendants st _ Hcl k (c_id d) (c_id c)).
      - congruence.
      - apply Hb; left; reflexivity. }
    apply memb_In in H0. rewrite H0 in Hn. discriminate.
Qed.

(** Alice deletes post "Intro": the three comments of the thread go. *)
Lemma delete_cascades_witness :
  (method (mkRequest DELETE (Some 1) (Some 1) ∅ None None 9) = DELETE /\
   target (mkRequest DELETE (Some 1) (Some 1) ∅ None None 9) = Some 1) /\
  handle drf_defaults (fun l => l) 5 RPost thread_store (mkRequest DELETE (Some 1) (Some 1) ∅ None None 9)
    = (mkStore [alice; bob] [mkCategory 1 "Tech"] [mkTag 1 "News"] [] [] 2 2 2 4, Ok 204 PNone) /\
  (forall d, In d (comments (mkStore [alice; bob] [mkCategory 1 "Tech"] [mkTag 1 "News"] [] []
                                     2 2 2 4)) -> c_post d <> 1).
Proof.
  split; [split; reflexivity|].
  split; [vm_compute; reflexivity|].
  apply (delete_cascades drf_defaults (fun l => l) 5 thread_store
           (mkRequest DELETE (Some 1) (Some 1) ∅ None None 9) 1
           (mkStore [alice; bob] [mkCategory 1 "Tech"] [mkTag 1 "News"] [] [] 2 2 2 4)
           eq_refl eq_refl).
  vm_compute; reflexivity.
Defined.

(* ------------------------------------------------------------------ *)
(** ** The recursive representation *)

Lemma iter_parent_add st a b x :
  iter_parent st (a + b) x =
  match iter_parent st a x with Some y => iter_parent st b y | None => None end.
Proof.
  revert x. induction a as [|a IH]; intros x; simpl; [reflexivity|].
  destruct (parent_of st x); [apply IH | reflexivity].
Qed.

Lemma iter_parent_last st k x a :
  iter_parent st (S k) x = Some a <->
  exists y, iter_parent st k x = Some y /\ parent_of st y = Some a.
Proof.
  replace (S k) with (k + 1) by lia. rewrite iter_parent_add.
  destruct (iter_parent st k x) as [y|]; simpl.
  - destruct (parent_of st y) eqn:E; split.
    + intros H; inversion H; subst; eauto.
    + intros [y' [H1 H2]]; inversion H1; subst; congruence.
    + discriminate.
    + intros [y' [H1 H2]]; inversion H1; subst; congruence.
  - split; [discriminate | intros [y [H _]]; discriminate].
Qed.

Lemma iter_parent_split st a b x y z :
  iter_parent st a x = Some y -> iter_parent st (a + b) x = Some z ->
  iter_parent st b y = Some z.
Proof. intros H1 H2. rewrite iter_parent_add, H1 in H2. exact H2. Qed.

Lemma find_id_NoDup (l : list Comment) d :
  List.NoDup (map c_id l) -> In d l -> List.find (fun c => c_id c =? c_id d) l = Some d.
Proof.
  induction l as [|e l IH]; intros Hnd Hd; [destruct Hd|].
  simpl in Hnd. inversion Hnd as [|? ? Hn Hnd']; subst. simpl.
  destruct Hd as [->|Hd]; [rewrite Nat.eqb_refl; reflexivity|].
  destruct (Nat.eqb_spec (c_id e) (c_id d)) as [E|E]; [|apply IH; assumption].
  exfalso. apply Hn. rewrite E. apply in_map, Hd.
Qed.

Lemma find_comment_id st d :
  List.NoDup (comment_ids st) -> In d (comments st) -> find_comment st (c_id d) = Some d.
Proof. apply find_id_NoDup. Qed.

Lemma children_iff st c d :
  In d (children st c) <-> In d (comments st) /\ c_parent d = Some (c_id c).
Proof.
  unfold children. rewrite filter_In.
  destruct (c_parent d) as [p|]; [|split; [intros [_ H]; discriminate | intros [_ H]; discriminate]].
  rewrite Nat.eqb_eq. split; intros [H1 H2]; split; congruence.
Qed.

Lemma parent_of_child st c d :
  List.NoDup (comment_ids st) -> In d (children st c) -> parent_of st (c_id d) = Some (c_id c).
Proof.
  intros Hnd Hd. apply children_iff in Hd as [Hd Hp].
  unfold parent_of. rewrite (find_comment_id st d Hnd Hd). exact Hp.
Qed.

Lemma map_opt_Forall2 {A B} (g : A -> option B) l ys :
  map_opt g l = Some ys <-> Forall2 (fun x y => g x = Some y) l ys.
Proof.
  revert ys. induction l as [|x l IH]; intros ys; simpl.
  - split; [intros H; inversion H; constructor | intros H; inversion H; reflexivity].
  - destruct (g x) as [y|] eqn:Eg, (map_opt g l) as [ys'|] eqn:El.
    + split.
      * intros H; inversion H; subst. constructor; [exact Eg | apply IH; reflexivity].
      * intros H; inversion H; subst. apply IH in H4. congruence.
    + split; [discriminate|]. intros H; inversion H; subst.
      apply IH in H4. discriminate.
    + split; [discriminate|]. intros H; inversion H; subst. congruence.
    + split; [discriminate|]. intros H; inversion H; subst. congruence.
Qed.


Lemma Forall2_in_r {A B} (P : A -> B -> Prop) l1 l2 y :
  Forall2 P l1 l2 -> In y l2 -> exists x, In x l1 /\ P x y.
Proof.
  intros H. induction H as [|a b m1 m2 Hab _ IH]; intros Hy; [destruct Hy|].
  destruct Hy as [->|Hy'].
  - exists a. split; [left; reflexivity | exact Hab].
  - destruct (IH Hy') as [x' [H1 H2]]. exists x'. split; [right; exact H1 | exact H2].
Qed.

Lemma Forall2_in_l {A B} (P : A -> B -> Prop) l1 l2 x :
  Forall2 P l1 l2 -> In x l1 -> exists y, In y l2 /\ P x y.
Proof.
  intros H. induction H as [|a b m1 m2 Hab _ IH]; intros Hx; [destruct Hx|].
  destruct Hx as [->|Hx'].
  - exists b. split; [left; reflexivity | exact Hab].
  - destruct (IH Hx') as [y' [H1 H2]]. exists y'. split; [right; exact H1 | exact H2].
Qed.

Lemma serialize_inv qo f st c t :
  serialize qo f st c = Some t ->
  exists f' rs, f = S f' /\
    Forall2 (fun d r => serialize qo f' st d = Some r) (qo (children st c)) rs /\
    t = to_node st c rs.
Proof.
  destruct f as [|f]; simpl; [discriminate|].
  destruct (map_opt (serialize qo f st) (qo (children st c))) as [rs|] eqn:E; [|discriminate].
  intros H; inversion H; subst. apply map_opt_Forall2 in E. eauto.
Qed.

Lemma serialize_id qo f st c t : serialize qo f st c = Some t -> n_id t = c_id c.
Proof. intros H. apply serialize_inv in H as [f' [rs [_ [_ ->]]]]. reflexivity. Qed.

Lemma Forall2_serialize_ids qo f st ds rs :
  Forall2 (fun d r => serialize qo f st d = Some r) ds rs -> map n_id rs = map c_id ds.
Proof.
  induction 1 as [|d r ds rs H _ IH]; simpl; [reflexivity|].
  rewrite (serialize_id _ _ _ _ _ H), IH. reflexivity.
Qed.

Lemma NoDup_map_filter {A B} (g : A -> B) (P : A -> bool) l :
  List.NoDup (map g l) -> List.NoDup (map g (List.filter P l)).
Proof.
  induction l as [|x l IH]; intros H; simpl; [constructor|].
  inversion H as [|? ? Hn H']; subst. destruct (P x); simpl; [|auto].
  constructor; [|auto]. intros Hin. apply Hn.
  apply in_map_iff in Hin as [y [<- Hy]]. apply filter_In in Hy. apply in_map, Hy.
Qed.

Lemma children_ids_NoDup qo st c :
  valid_order qo -> List.NoDup (comment_ids st) -> List.NoDup (map c_id (qo (children st c))).
Proof.
  intros Hqo Hnd. apply (Permutation_NoDup (l := map c_id (children st c))).
  - apply Permutation_map. symmetry. apply Hqo.
  - apply NoDup_map_filter, Hnd.
Qed.

Lemma in_qo_children qo st c d :
  valid_order qo -> In d (qo (children st c)) <-> In d (children st c).
Proof.
  intros Hqo. split; intros H.
  - apply (Permutation_in _ (Hqo _) H).
  - apply (Permutation_in _ (Permutation_sym (Hqo _)) H).
Qed.

(** The keys found [k] levels below the root of the representation of [e]
    are exactly those from which [k] parent steps lead to [e]. *)
Lemma at_depth_iff qo st :
  valid_order qo -> List.NoDup (comment_ids st) ->
  forall k f e t x, serialize qo f st e = Some t ->
  In x (at_depth k t) <-> iter_parent st k x = Some (c_id e).
Proof.
  intros Hqo Hnd k. induction k as [|k IH]; intros f e t x Hs.
  - simpl. rewrite (serialize_id _ _ _ _ _ Hs). split.
    + intros [<-|[]]; reflexivity.
    + intros H; inversion H; left; reflexivity.
  - apply serialize_inv in Hs as [f' [rs [-> [Hrs ->]]]].
    rewrite iter_parent_last. cbn [at_depth n_replies to_node]. rewrite in_concat. split.
    + intros [l [Hl Hx]]. apply in_map_iff in Hl as [r [<- Hr]].
      destruct (Forall2_in_r _ _ _ _ Hrs Hr) as [d [Hd Hdr]].
      apply (in_qo_children qo st e d Hqo) in Hd.
      exists (c_id d). split; [exact (proj1 (IH _ _ _ _ Hdr) Hx)|].
      apply parent_of_child; assumption.
    + intros [y [Hy Hp]]. unfold parent_of in Hp.
      destruct (find_comment st y) as [d|] eqn:Ed; [|discriminate].
      apply find_comment_some in Ed as [Hd <-].
      assert (Hc : In d (qo (children st e)))
        by (apply (in_qo_children qo st e d Hqo), children_iff; auto).
      destruct (Forall2_in_l _ _ _ _ Hrs Hc) as [r [Hr Hdr]].
      exists (at_depth k r). split; [apply in_map, Hr|].
      exact (proj2 (IH _ _ _ _ Hdr) Hy).
Qed.

Lemma at_depth_bound qo st f : forall e t k x,
  serialize qo f st e = Some t -> In x (at_depth k t) -> k < f.
Proof.
  induction f as [|f IH]; intros e t k x Hs Hx; [discriminate|].
  apply serialize_inv in Hs as [f' [rs [Hf [Hrs ->]]]]. inversion Hf; subst f'.
  destruct k as [|k]; [lia|]. simpl in Hx.
  apply in_concat in Hx as [l [Hl Hx]]. apply in_map_iff in Hl as [r [<- Hr]].
  destruct (Forall2_in_r _ _ _ _ Hrs Hr) as [d [_ Hdr]].
  pose proof (IH _ _ _ _ Hdr Hx). lia.
Qed.

(** A comment whose representation is finite lies on no cycle of the
    parent relation. *)
Lemma no_cycle qo st f e t k :
  valid_order qo -> List.NoDup (comment_ids st) ->
  serialize qo f st e = Some t -> iter_parent st (S k) (c_id e) <> Some (c_id e).
Proof.
  intros Hqo Hnd Hs Hc.
  assert (Hm : forall m, iter_parent st (m * S k) (c_id e) = Some (c_id e)).
  { induction m as [|m IHm]; [reflexivity|].
    replace (S m * S k) with (S k + m * S k) by lia.
    rewrite iter_parent_add, Hc. exact IHm. }
  pose proof (proj2 (at_depth_iff qo st Hqo Hnd (f * S k) f e t (c_id e) Hs) (Hm f)) as Hx.
  pose proof (at_depth_bound qo st f e t _ _ Hs Hx). nia.
Qed.

Lemma flatten_at_depth qo st f : forall e t x,
  serialize qo f st e = Some t ->
  In x (flatten t) <-> exists k, In x (at_depth k t).
Proof.
  induction f as [|f IH]; intros e t x Hs; [discriminate|].
  apply serialize_inv in Hs as [f' [rs [Hf [Hrs ->]]]]. inversion Hf; subst f'.
  simpl. rewrite in_concat. split.
  - intros [<-|[l [Hl Hx]]]; [exists 0; left; reflexivity|].
    apply in_map_iff in Hl as [r [<- Hr]].
    destruct (Forall2_in_r _ _ _ _ Hrs Hr) as [d [_ Hdr]].
    destruct (proj1 (IH _ _ _ Hdr) Hx) as [k Hk].
    exists (S k). simpl. apply in_concat. exists (at_depth k r). split; [apply in_map, Hr | exact Hk].
  - intros [[|k] Hk].
    + destruct Hk as [<-|[]]. left; reflexivity.
    + right. simpl in Hk. apply in_concat in Hk as [l [Hl Hx]].
      apply in_map_iff in Hl as [r [<- Hr]].
      destruct (Forall2_in_r _ _ _ _ Hrs Hr) as [d [_ Hdr]].
      exists (flatten r). split; [apply in_map, Hr|]. apply (IH _ _ _ Hdr). eauto.
Qed.

Lemma flatten_iff qo st f e t x :
  valid_order qo -> List.NoDup (comment_ids st) -> serialize qo f st e = Some t ->
  In x (flatten t) <-> exists k, iter_parent st k x = Some (c_id e).
Proof.
  intros Hqo Hnd Hs. rewrite (flatten_at_depth qo st f e t x Hs).
  split; intros [k Hk]; exists k; eapply at_depth_iff; eauto.
Qed.

Lemma nodup_app_intro {A} (l1 l2 : list A) :
  List.NoDup l1 -> List.NoDup l2 -> (forall x, In x l1 -> In x l2 -> False) -> List.NoDup (l1 ++ l2).
Proof.
  induction l1 as [|a l1 IH]; intros H1 H2 Hd; simpl; [exact H2|].
  inversion H1 as [|? ? Hn H1']; subst. constructor.
  - intros Hin. apply in_app_or in Hin as [Hin|Hin]; [contradiction|].
    apply (Hd a); [left; reflexivity | exact Hin].
  - apply IH; [exact H1' | exact H2 |]. intros x Hx Hx'. apply (Hd x); [right|]; assumption.
Qed.

(** Two children of [e] cannot both lie above the same comment. *)
Lemma siblings_disjoint qo st f e t d d' k1 k2 x :
  valid_order qo -> List.NoDup (comment_ids st) -> serialize qo f st e = Some t ->
  In d (children st e) -> In d' (children st e) ->
  iter_parent st k1 x = Some (c_id d) -> iter_parent st k2 x = Some (c_id d') ->
  c_id d = c_id d'.
Proof.
  intros Hqo Hnd Hs Hd Hd'.
  assert (Hle : forall a b y z, In y (children st e) -> In z (children st e) -> a <= b ->
            iter_parent st a x = Some (c_id y) -> iter_parent st b x = Some (c_id z) ->
            c_id y = c_id z).
  { intros a b y z Hy Hz Hab Ha Hb.
    destruct (Nat.eq_dec a b) as [->|Hne]; [congruence|].
    replace b with (a + S (b - a - 1)) in Hb by lia.
    pose proof (iter_parent_split _ _ _ _ _ _ Ha Hb) as Hyz.
    exfalso. apply (no_cycle qo st f e t (b - a - 1) Hqo Hnd Hs).
    replace (S (b - a - 1)) with (1 + (b - a - 1)) in Hyz |- * by lia.
    rewrite iter_parent_add in Hyz. simpl in Hyz.
    rewrite (parent_of_child st e y Hnd Hy) in Hyz.
    replace (1 + (b - a - 1)) with ((b - a - 1) + 1) by lia.
    rewrite iter_parent_add, Hyz. simpl. rewrite (parent_of_child st e z Hnd Hz). reflexivity. }
  intros H1 H2. destruct (Nat.le_ge_cases k1 k2).
  - exact (Hle k1 k2 d d' Hd Hd' H H1 H2).
  - symmetry. exact (Hle k2 k1 d' d Hd' Hd H H2 H1).
Qed.

(** No key occurs twice in the representation of a comment. *)
Lemma flatten_NoDup qo st :
  valid_order qo -> List.NoDup (comment_ids st) ->
  forall f e t, serialize qo f st e = Some t -> List.NoDup (flatten t).
Proof.
  intros Hqo Hnd f. induction f as [|f IH]; intros e t Hs; [discriminate|].
  pose proof Hs as Hs0.
  apply serialize_inv in Hs as [f' [rs [Hf [Hrs ->]]]]. inversion Hf; subst f'.
  simpl. constructor.
  - intros Hin. apply in_concat in Hin as [l [Hl Hx]].
    apply in_map_iff in Hl as [r [<- Hr]].
    destruct (Forall2_in_r _ _ _ _ Hrs Hr) as [d [Hd Hdr]].
    apply (in_qo_children qo st e d Hqo) in Hd.
    destruct (proj1 (flatten_iff qo st f d r (c_id e) Hqo Hnd Hdr) Hx) as [k Hk].
    apply (no_cycle qo st (S f) e _ k Hqo Hnd Hs0).
    apply iter_parent_last. exists (c_id d). split; [exact Hk|].
    apply parent_of_child; assumption.
  - assert (Hcat : forall ds rs0,
              Forall2 (fun d r => serialize qo f st d = Some r) ds rs0 ->
              List.NoDup (map c_id ds) -> (forall d, In d ds -> In d (children st e)) ->
              List.NoDup (concat (map flatten rs0))).
    { intros ds rs0 H. induction H as [|d r ds rs0 Hdr Hrs' IHrs]; intros Hids Hall;
        simpl; [constructor|].
      inversion Hids as [|? ? Hn Hids']; subst.
      apply nodup_app_intro.
      + exact (IH _ _ Hdr).
      + apply IHrs; [exact Hids' | intros d' Hd'; apply Hall; right; exact Hd'].
      + intros x Hx Hx'. apply in_concat in Hx' as [l [Hl Hx']].
        apply in_map_iff in Hl as [r' [<- Hr']].
        destruct (Forall2_in_r _ _ _ _ Hrs' Hr') as [d' [Hd' Hdr']].
        destruct (proj1 (flatten_iff qo st f d r x Hqo Hnd Hdr) Hx) as [k1 Hk1].
        destruct (proj1 (flatten_iff qo st f d' r' x Hqo Hnd Hdr') Hx') as [k2 Hk2].
        apply Hn. rewrite (siblings_disjoint qo st (S f) e _ d d' k1 k2 x Hqo Hnd Hs0
                             (Hall d (or_introl eq_refl)) (Hall d' (or_intror Hd')) Hk1 Hk2).
        apply in_map, Hd'. }
    apply (Hcat _ _ Hrs).
    + apply children_ids_NoDup; assumption.
    + intros d. apply (in_qo_children qo st e d Hqo).
Qed.

Lemma nodup_count_one (l : list nat) x :
  List.NoDup l -> In x l -> count_occ Nat.eq_dec l x = 1.
Proof.
  intros Hnd Hin. pose proof (proj1 (NoDup_count_occ Nat.eq_dec l) Hnd x).
  pose proof (proj1 (count_occ_In Nat.eq_dec l x) Hin). lia.
Qed.

(** C1 *)
(** Claim C1: the [replies] of the representation of a comment [c] are the
    representations, produced by the same serializer, of the comments
    whose parent is [c] (in the order the query returns them), all of them
    and nothing else; each child's key occurs exactly once among the
    [replies] and exactly once in the whole representation of [c].
    Primary keys are unique, as the table's primary key guarantees. *)
Theorem replies_are_children qo st c f t :
  valid_order qo -> List.NoDup (comment_ids st) ->
  serialize qo f st c = Some t ->
  (exists f', f = S f' /\
     Forall2 (fun d r => serialize qo f' st d = Some r) (qo (children st c)) (n_replies t)) /\
  Permutation (map n_id (n_replies t)) (map c_id (children st c)) /\
  (forall d, In d (children st c) ->
     count_occ Nat.eq_dec (map n_id (n_replies t)) (c_id d) = 1 /\
     count_occ Nat.eq_dec (flatten t) (c_id d) = 1).
Proof.
  intros Hqo Hnd Hs. pose proof Hs as Hs0.
  apply serialize_inv in Hs as [f' [rs [-> [Hrs ->]]]]. cbn [n_replies to_node].
  pose proof (Forall2_serialize_ids _ _ _ _ _ Hrs) as Hids.
  assert (Hperm : Permutation (map n_id rs) (map c_id (children st c)))
    by (rewrite Hids; apply Permutation_map, Hqo).
  split; [eauto|]. split; [exact Hperm|].
  intros d Hd.
  assert (Hin : In (c_id d) (map n_id rs))
    by (apply (Permutation_in _ (Permutation_sym Hperm)), in_map, Hd).
  split.
  - apply nodup_count_one; [|exact Hin].
    rewrite Hids. apply children_ids_NoDup; assumption.
  - apply nodup_count_one.
    + exact (flatten_NoDup qo st Hqo Hnd _ _ _ Hs0).
    + simpl. right. apply in_map_iff in Hin as [r [Hr Hr']].
      apply in_concat. exists (flatten r). split; [apply in_map, Hr'|].
      destruct r; simpl in *; left; exact Hr.
Qed.

(** The thread of the sample data, serialized with the rows in insertion
    order. *)
Lemma replies_are_children_witness :
  (valid_order (fun l => l) /\ List.NoDup (comment_ids thread_store)) /\
  exists t, serialize (fun l => l) 5 thread_store cm1 = Some t /\
    Permutation (map n_id (n_replies t)) (map c_id (children thread_store cm1)).
Proof.
  split; [split; [intros l; reflexivity | vm_compute; repeat constructor; simpl; lia]|].
  destruct (serialize (fun l => l) 5 thread_store cm1) as [t|] eqn:E.
  - exists t. split; [reflexivity|].
    apply (replies_are_children (fun l => l) thread_store cm1 5 t).
    + intros l; reflexivity.
    + vm_compute. repeat constructor; simpl; lia.
    + exact E.
  - vm_compute in E. discriminate.
Defined.




Lemma thread_store_acyclic : acyclic_store thread_store.
Proof.
  split.
  - vm_compute. repeat constructor; simpl; lia.
  - intros d Hd. simpl in Hd.
    destruct Hd as [<-|[<-|[<-|[]]]]; simpl; split; try lia;
      intros p Hp; inversion Hp; lia.
Qed.







(** C9 *)
(** Claim C9, as the code has it: the [replies] of the representation of
    a comment are its children in the order the database returns the rows
    of [c.replies.all()], a query without [ORDER BY] ([Comment] has no
    [Meta.ordering]); they are a permutation of the children in insertion
    order, and equal to it only when the database returns the rows in
    that order. *)
Theorem replies_in_query_order qo f st c t :
  serialize qo f st c = Some t ->
  map n_id (n_replies t) = map c_id (qo (children st c)) /\
  (valid_order qo -> Permutation (map n_id (n_replies t)) (map c_id (children st c))).
Proof.
  intros Hs. apply serialize_inv in Hs as [f' [rs [_ [Hrs ->]]]]. cbn [n_replies to_node].
  rewrite (Forall2_serialize_ids _ _ _ _ _ Hrs). split; [reflexivity|].
  intros Hqo. apply Permutation_map, Hqo.
Qed.

(** With rows returned in insertion order, the two replies of comment 1
    come in the order they were created. *)
Lemma replies_in_query_order_witness :
  exists t, serialize (fun l => l) 5 siblings_store cm1 = Some t /\
    map n_id (n_replies t) = map c_id (children siblings_store cm1).
Proof.
  destruct (serialize (fun l => l) 5 siblings_store cm1) as [t|] eqn:E.
  - exists t. split; [reflexivity|].
    exact (proj1 (replies_in_query_order (fun l => l) 5 siblings_store cm1 t E)).
  - vm_compute in E. discriminate.
Defined.

(** Counterexample to C9: a database that returns the rows of the
    unordered query last-inserted first (a valid order) puts the reply
    created at time 3 before the one created at time 2. *)
Lemma replies_insertion_order_counterexample :
  valid_order (@rev Comment) /\
  exists t, serialize (@rev Comment) 5 siblings_store cm1 = Some t /\
    map n_id (n_replies t) = [3; 2] /\
    map c_id (children siblings_store cm1) = [2; 3] /\
    map c_created (children siblings_store cm1) = [2; 3].
Proof.
  split; [intros l; symmetry; apply Permutation_rev|].
  eexists. split; [vm_compute; reflexivity|]. vm_compute. auto.
Qed.

(* ------------------------------------------------------------------ *)
(** ** Keys written as decimal strings *)

Lemma n_digits_nonempty f : forall n acc, acc <> "" -> n_digits f n acc <> "".
Proof.
  induction f as [|f IH]; intros n acc H; simpl; [exact H|].
  destruct (N.div n 10 =? 0)%N; [discriminate | apply IH; discriminate].
Qed.

Lemma z_to_str_nonempty z : z_to_str z <> "".
Proof.
  unfold z_to_str. destruct (z <? 0)%Z; [discriminate|].
  simpl. destruct (N.div (Z.abs_N z) 10 =? 0)%N; [discriminate | apply n_digits_nonempty; discriminate].
Qed.

Lemma digit_char m : (m < 10)%N ->
  is_digit (ascii_of_N (48 + m)) = true /\ is_space (ascii_of_N (48 + m)) = false /\
  digit_value (ascii_of_N (48 + m)) = Z.of_N m.
Proof.
  intros Hm.
  assert (H : (m = 0 \/ m = 1 \/ m = 2 \/ m = 3 \/ m = 4 \/ m = 5 \/ m = 6 \/ m = 7 \/ m = 8 \/ m = 9)%N) by lia.
  repeat destruct H as [-> | H]; try (subst m); split; try reflexivity; split; reflexivity.
Qed.

Lemma n_digits_S f n acc :
  n_digits (S f) n acc =
  if (N.div n 10 =? 0)%N then String (ascii_of_N (48 + N.modulo n 10)) acc
  else n_digits f (N.div n 10) (String (ascii_of_N (48 + N.modulo n 10)) acc).
Proof. reflexivity. Qed.

Lemma n_digits_parse f : forall n acc, (Z.of_N n < 10 ^ Z.of_nat (S f))%Z ->
  exists ds, list_ascii_of_string (n_digits (S f) n acc) = ds ++ list_ascii_of_string acc /\
    ds <> [] /\ (forall a, In a ds -> is_digit a = true /\ is_space a = false) /\
    forall l a0 sd, parse_digits (ds ++ l) a0 sd =
                    parse_digits l (a0 * 10 ^ Z.of_nat (length ds) + Z.of_N n)%Z true.
Proof.
  induction f as [|f IH]; intros n acc Hn.
  - exists [ascii_of_N (48 + N.modulo n 10)].
    destruct (digit_char (N.modulo n 10) ltac:(apply N.mod_lt; lia)) as [D1 [D2 D3]].
    assert (Hq : (N.div n 10 = 0)%N) by (apply N.div_small; lia).
    simpl n_digits. rewrite Hq. simpl.
    split; [reflexivity|]. split; [discriminate|]. split; [intros a [<-|[]]; auto|].
    intros l a0 sd. rewrite D1, D3. rewrite N.mod_small by lia. f_equal; lia.
  - destruct (digit_char (N.modulo n 10) ltac:(apply N.mod_lt; lia)) as [D1 [D2 D3]].
    rewrite n_digits_S.
    pose proof (N.div_mod n 10 ltac:(lia)) as Hdm.
    destruct (N.eqb_spec (N.div n 10) 0) as [Hq|Hq].
    + exists [ascii_of_N (48 + N.modulo n 10)].
      split; [reflexivity|]. split; [discriminate|]. split; [intros a [<-|[]]; auto|].
      intros l a0 sd. simpl. rewrite D1, D3. f_equal; rewrite Hq in Hdm; lia.
    + destruct (IH (N.div n 10) (String (ascii_of_N (48 + N.modulo n 10)) acc)) as [ds [E1 [E2 [E3 E4]]]].
      { rewrite Nat2Z.inj_succ, Z.pow_succ_r in Hn by lia.
        rewrite N2Z.inj_div. apply Z.div_lt_upper_bound; lia. }
      exists (ds ++ [ascii_of_N (48 + N.modulo n 10)]).
      split; [rewrite E1, <- app_assoc; reflexivity|].
      split; [destruct ds; [contradiction | discriminate]|].
      split; [intros a Ha; apply in_app_iff in Ha as [Ha|[<-|[]]]; auto|].
      intros l a0 sd. rewrite <- app_assoc, E4. simpl. rewrite D1, D3. f_equal.
      rewrite length_app. simpl. rewrite Nat2Z.inj_add, Z.pow_add_r by lia. simpl.
      rewrite Hdm at 3. rewrite N2Z.inj_add, N2Z.inj_mul. lia.
Qed.

Lemma pos_size_bound p : (Z.pos p < 2 ^ Z.of_nat (Pos.size_nat p))%Z.
Proof.
  induction p as [p IH|p IH|]; simpl Pos.size_nat; [| |reflexivity];
    rewrite Nat2Z.inj_succ, Z.pow_succ_r by lia; lia.
Qed.

Lemma abs_N_digits_bound z :
  (Z.of_N (Z.abs_N z) < 10 ^ Z.of_nat (S (N.size_nat (Z.abs_N z))))%Z.
Proof.
  destruct (Z.abs_N z) as [|p] eqn:E; [simpl; lia|].
  simpl N.size_nat. pose proof (pos_size_bound p) as H.
  assert (H2 : (2 ^ Z.of_nat (Pos.size_nat p) <= 10 ^ Z.of_nat (Pos.size_nat p))%Z)
    by (apply Z.pow_le_mono_l; lia).
  rewrite Nat2Z.inj_succ, Z.pow_succ_r by lia. simpl Z.of_N. lia.
Qed.

Lemma drop_spaces_id l : (forall a, In a l -> is_space a = false) -> drop_spaces l = l.
Proof.
  destruct l as [|a l]; intros H; [reflexivity|]. simpl. rewrite (H a (or_introl eq_refl)). reflexivity.
Qed.

Lemma strip_id s : (forall a, In a (list_ascii_of_string s) -> is_space a = false) -> strip s = s.
Proof.
  intros H. unfold strip. rewrite (drop_spaces_id _ H), drop_spaces_id, rev_involutive.
  - apply string_of_list_ascii_of_string.
  - intros a Ha. apply H, in_rev, Ha.
Qed.

Lemma python_int_digit s d rest :
  list_ascii_of_string (strip s) = d :: rest -> is_digit d = true ->
  python_int s = parse_digits (d :: rest) 0 false.
Proof.
  intros H Hd. unfold python_int. rewrite H.
  destruct d as [[] [] [] [] [] [] [] []]; try discriminate Hd; reflexivity.
Qed.

Lemma list_ascii_String a s : list_ascii_of_string (String a s) = a :: list_ascii_of_string s.
Proof. reflexivity. Qed.

Lemma python_int_z_to_str z : python_int (z_to_str z) = Some z.
Proof.
  destruct (n_digits_parse (N.size_nat (Z.abs_N z)) (Z.abs_N z) "" (abs_N_digits_bound z))
    as [ds [E1 [E2 [E3 E4]]]].
  rewrite app_nil_r in E1.
  unfold z_to_str. destruct (Z.ltb_spec z 0) as [Hz|Hz].
  - unfold python_int. rewrite strip_id.
    + rewrite list_ascii_String, E1. rewrite <- (app_nil_r ds), E4. simpl. f_equal. lia.
    + rewrite list_ascii_String, E1. intros a [<-|Ha]; [reflexivity | apply E3, Ha].
  - destruct ds as [|d rest]; [contradiction|].
    rewrite (python_int_digit _ d rest).
    + rewrite <- (app_nil_r (d :: rest)), E4. simpl. f_equal. lia.
    + rewrite strip_id; [exact E1|]. rewrite E1. intros a Ha. apply E3, Ha.
    + apply E3. left. reflexivity.
Qed.

Lemma pages_concat {A} size : forall n (rows : list A),
  length rows <= n * size ->
  concat (map (fun k => firstn size (skipn (k * size) rows)) (seq 0 n)) = rows.
Proof.
  induction n as [|n IH]; intros rows Hl.
  - simpl. destruct rows; [reflexivity | simpl in Hl; lia].
  - rewrite <- cons_seq, <- seq_shift, map_cons, map_map. simpl.
    rewrite (map_ext (fun x => firstn size (skipn (size + x * size) rows))
                     (fun x => firstn size (skipn (x * size) (skipn size rows))))
      by (intros x; rewrite skipn_skipn, Nat.add_comm; reflexivity).
    rewrite IH; [apply firstn_skipn|]. rewrite length_skipn. lia.
Qed.

Lemma num_pages_pos count size : 1 <= num_pages count size \/ size = 0.
Proof.
  unfold num_pages. destruct (Nat.eqb_spec count 0); [lia|].
  destruct size as [|size]; [right; reflexivity|left].
  apply Nat.div_le_lower_bound; lia.
Qed.

Lemma num_pages_cover count size : 0 < size -> count <= num_pages count size * size.
Proof.
  intros Hs. unfold num_pages. destruct (Nat.eqb_spec count 0); [lia|].
  pose proof (Nat.div_mod (count + size - 1) size ltac:(lia)).
  pose proof (Nat.mod_upper_bound (count + size - 1) size ltac:(lia)). nia.
Qed.


(* ------------------------------------------------------------------ *)
(** ** The comment listing *)



















Lemma filter_all {A} (P : A -> bool) l : (forall a, In a l -> P a = true) -> List.filter P l = l.
Proof.
  induction l as [|a l IH]; intros H; simpl; [reflexivity|].
  rewrite (H a (or_introl eq_refl)), IH; [reflexivity|]. intros b Hb; apply H; right; exact Hb.
Qed.





(* ------------------------------------------------------------------ *)
(** ** Rejected comment creations *)

Lemma char_field_no_crash m partial v : crashed (char_field m partial v) = false.
Proof. unfold char_field, missing. repeat case_match; reflexivity. Qed.

Lemma parent_field_no_crash st partial v : crashed (parent_field st partial v) = false.
Proof. unfold parent_field, missing. repeat case_match; reflexivity. Qed.

Lemma slug_lookup_no_crash {A} (slug : A -> string) rows w :
  length (slug_matches slug rows w) <= 1 -> crashed (slug_lookup slug rows w) = false.
Proof.
  unfold slug_lookup. destruct (slug_matches slug rows w) as [|r [|r' l]]; simpl;
    [reflexivity | reflexivity | lia].
Qed.

Lemma slug_field_no_crash {A} (slug : A -> string) rows partial v :
  (forall w, v = Some w -> length (slug_matches slug rows w) <= 1) ->
  crashed (slug_field slug rows partial v) = false.
Proof.
  intros H. destruct v as [w|]; [|unfold slug_field, missing; repeat case_match; reflexivity].
  specialize (H w eq_refl).
  destruct w as [| | |[|a s]|]; cbn [slug_field]; try reflexivity; apply slug_lookup_no_crash; exact H.
Qed.

Lemma filter_none {A} (P : A -> bool) l :
  (forall x, In x l -> P x = false) -> List.filter P l = [].
Proof.
  induction l as [|x l IH]; intros H; simpl; [reflexivity|].
  rewrite (H x (or_introl eq_refl)). apply IH. intros y Hy. apply H. right. exact Hy.
Qed.

Lemma handle_create_comment_invalid cfg qo fuel st req u :
  method req = POST -> target req = None -> caller req = Some u ->
  crashed (slug_field title (posts st) false (data req !! "post")) = false ->
  err_name "post" (slug_field title (posts st) false (data req !! "post"))
    ++ err_name "content" (char_field None false (data req !! "content"))
    ++ err_name "parent" (parent_field st false (data req !! "parent")) <> [] ->
  handle cfg qo fuel RComment st req =
    (st, BadRequest (err_name "post" (slug_field title (posts st) false (data req !! "post"))
                     ++ err_name "content" (char_field None false (data req !! "content"))
                     ++ err_name "parent" (parent_field st false (data req !! "parent")))).
Proof.
  intros Hm Ht Hc Hcr Hne. unfold handle, check_permissions, has_permission.
  rewrite Hc, Ht, Hm. simpl. unfold validate_comment.
  rewrite Hcr, char_field_no_crash, parent_field_no_crash. simpl.
  destruct (err_name "post" (slug_field title (posts st) false (data req !! "post"))
            ++ err_name "content" (char_field None false (data req !! "content"))
            ++ err_name "parent" (parent_field st false (data req !! "parent")));
    [contradiction | reflexivity].
Qed.

(** C7 *)
(** Claim C7, as the code has it: for an authenticated caller, and as long
    as the supplied [post] value does not match the titles of several
    posts, a comment creation whose post title matches no post, whose
    parent key matches no comment, or whose content is missing or blank
    is answered with a validation error naming that field, and the store
    is left as it was: no comment is created. *)
Theorem create_comment_rejected cfg qo fuel st req u :
  method req = POST -> target req = None -> caller req = Some u ->
  (forall v, data req !! "post" = Some v -> length (slug_matches title (posts st) v) <= 1) ->
  ((exists s, data req !! "post" = Some (VStr s) /\ forall q, In q (posts st) -> title q <> s) ->
     exists es, handle cfg qo fuel RComment st req = (st, BadRequest es) /\ In "post" es) /\
  ((exists z, (data req !! "parent" = Some (VInt z) \/
               exists s, data req !! "parent" = Some (VStr s) /\ python_int s = Some z) /\
              forall c, In c (comments st) -> Z.of_nat (c_id c) <> z) ->
     exists es, handle cfg qo fuel RComment st req = (st, BadRequest es) /\ In "parent" es) /\
  ((data req !! "content" = None \/
    exists s, data req !! "content" = Some (VStr s) /\ strip s = "") ->
     exists es, handle cfg qo fuel RComment st req = (st, BadRequest es) /\ In "content" es).
Proof.
  intros Hm Ht Hc Hmany.
  pose proof (slug_field_no_crash title (posts st) false (data req !! "post") Hmany) as Hcr.
  set (es := err_name "post" (slug_field title (posts st) false (data req !! "post"))
             ++ err_name "content" (char_field None false (data req !! "content"))
             ++ err_name "parent" (parent_field st false (data req !! "parent"))).
  assert (Hgo : forall name, In name es ->
            exists es', handle cfg qo fuel RComment st req = (st, BadRequest es') /\ In name es').
  { intros name Hin. exists es. split; [|exact Hin].
    apply (handle_create_comment_invalid cfg qo fuel st req u Hm Ht Hc Hcr).
    intros E. fold es in E. rewrite E in Hin. destruct Hin. }
  split; [|split].
  - intros [s [Hp Hnone]]. apply Hgo. unfold es. apply in_or_app. left.
    rewrite Hp. destruct s as [|a s]; [left; reflexivity|].
    cbn [slug_field]. unfold slug_lookup, slug_matches, py_str.
    rewrite (filter_none (fun r => String.eqb (title r) (String a s)) (posts st)).
    + left; reflexivity.
    + intros q Hq. destruct (String.eqb_spec (title q) (String a s)); [|reflexivity].
      exfalso. exact (Hnone q Hq e).
  - intros [z [Hp Hnone]]. apply Hgo. unfold es. apply in_or_app. right. apply in_or_app. right.
    assert (Hpk : exists e,
              (if (z <? 0)%Z then FErr "does_not_exist"
               else match find_comment st (Z.to_nat z) with
                    | Some c => FOk (Some c)
                    | None => FErr "does_not_exist"
                    end) = @FErr (option Comment) e).
    { destruct (Z.ltb_spec z 0); [eauto|].
      destruct (find_comment st (Z.to_nat z)) as [c|] eqn:Ef; [|eauto].
      apply find_comment_some in Ef as [Hc' Hid]. exfalso. apply (Hnone c Hc'). lia. }
    destruct Hpk as [e He].
    destruct Hp as [Hp|[s [Hp Hpy]]]; rewrite Hp.
    + cbn [parent_field]. rewrite He. left; reflexivity.
    + destruct s as [|a s]; [vm_compute in Hpy; discriminate|].
      cbn [parent_field]. rewrite Hpy, He. left; reflexivity.
  - intros Hcont. apply Hgo. unfold es. apply in_or_app. right. apply in_or_app. left.
    destruct Hcont as [Hn|[s [Hs Hstrip]]].
    + rewrite Hn. left; reflexivity.
    + rewrite Hs. cbn [char_field]. rewrite Hstrip. left; reflexivity.
Qed.

(** The slip left out of C7: [Post.title] is not unique, and
    [SlugRelatedField] does not catch [MultipleObjectsReturned]; with two
    posts titled "Intro", a comment creation naming that title fails with
    a server error even though its content is blank. *)
Example duplicate_title_server_error :
  handle drf_defaults (fun l => l) 5 RComment same_title_store
    (mkRequest POST (Some 1) None
       (<["post" := VStr "Intro"]> (<["content" := VStr ""]> ∅)) None None 7)
  = (same_title_store, ServerError).
Proof. vm_compute. reflexivity. Qed.

(** Bob posts a comment on a post title that does not exist. *)
Lemma create_comment_rejected_witness :
  (method (mkRequest POST (Some 2) None
             (<["post" := VStr "Nope"]> (<["content" := VStr "hi"]> ∅)) None None 7) = POST /\
   target (mkRequest POST (Some 2) None
             (<["post" := VStr "Nope"]> (<["content" := VStr "hi"]> ∅)) None None 7) = None /\
   caller (mkRequest POST (Some 2) None
             (<["post" := VStr "Nope"]> (<["content" := VStr "hi"]> ∅)) None None 7) = Some 2) /\
  exists es, handle drf_defaults (fun l => l) 5 RComment thread_store
               (mkRequest POST (Some 2) None
                  (<["post" := VStr "Nope"]> (<["content" := VStr "hi"]> ∅)) None None 7)
             = (thread_store, BadRequest es) /\ In "post" es.
Proof.
  split; [split; [reflexivity | split; reflexivity]|].
  apply (create_comment_rejected drf_defaults (fun l => l) 5 thread_store
           (mkRequest POST (Some 2) None
              (<["post" := VStr "Nope"]> (<["content" := VStr "hi"]> ∅)) None None 7) 2
           eq_refl eq_refl eq_refl).
  - intros v Hv. vm_compute in Hv. inversion Hv; subst. vm_compute. lia.
  - exists "Nope". split; [vm_compute; reflexivity|].
    intros q Hq. simpl in Hq. destruct Hq as [<-|[]]. vm_compute. discriminate.
Defined.

(** Counterexample to C7: an anonymous caller posting a comment on a post
    title that does not exist is refused by the permission check, before
    any validation; the response is not a validation error. *)
Lemma anonymous_invalid_comment_denied :
  handle drf_defaults (fun l => l) 5 RComment thread_store
    (mkRequest POST None None
       (<["post" := VStr "Nope"]> (<["content" := VStr "hi"]> ∅)) None None 7)
  = (thread_store, Denied).
Proof. vm_compute. reflexivity. Qed.

(* ------------------------------------------------------------------ *)
(** ** Further properties of the viewsets *)

Lemma create_action_keeps_or_ok r st req :
  fst (create_action r st req) = st \/ exists s p, snd (create_action r st req) = Ok s p.
Proof. unfold create_action, outcome_of. repeat case_match; simpl; eauto. Qed.

Lemma update_action_keeps_or_ok cfg qo fuel st req partial o :
  fst (update_action cfg qo fuel st req partial o) = st \/
  (exists s p, snd (update_action cfg qo fuel st req partial o) = Ok s p) \/
  (exists c, o = OComment c /\ snd (update_action cfg qo fuel st req partial o) = ServerError /\
             atomic_requests cfg = false).
Proof.
  unfold update_action, outcome_of. destruct o as [p|c|c|t]; repeat case_match; simpl; eauto.
  destruct (atomic_requests cfg) eqn:Ea; simpl; eauto 7.
Qed.

Lemma get_object_comment cfg r st req i c :
  get_object cfg r st req i = VOk (Some (OComment c)) -> r = RComment.
Proof.
  destruct r; simpl; try (destruct List.find; discriminate); [|reflexivity].
  destruct (post_filter cfg (other_params req) st); try discriminate.
  destruct List.find; discriminate.
Qed.

(** A request that is not answered with a success leaves the store as it
    was: refusals, missing objects, validation errors, unsupported
    methods and server errors write nothing, with one exception: a PUT or
    PATCH of a comment whose representation cannot be produced after the
    save answers 500 and keeps the save, unless [ATOMIC_REQUESTS] rolls it
    back. *)
Theorem failed_request_keeps_store cfg qo fuel r st req st' resp :
  handle cfg qo fuel r st req = (st', resp) -> (forall s p, resp <> Ok s p) ->
  st' = st \/
  (r = RComment /\ (method req = PUT \/ method req = PATCH) /\ resp = ServerError /\
   atomic_requests cfg = false).
Proof.
  intros H Hno. unfold handle in H.
  destruct (check_permissions cfg r req); simpl in H; [|left; congruence].
  destruct (target req) as [i|].
  - destruct (method req) eqn:Em; try (left; inversion H; reflexivity);
      destruct (get_object cfg r st req i) as [[o|]|es|] eqn:Eg;
      try (left; inversion H; reflexivity);
      destruct (check_object_permissions cfg r req o); simpl in H;
      try (left; inversion H; reflexivity).
    + destruct (update_action_keeps_or_ok cfg qo fuel st req false o)
        as [E|[[s [p E]]|[c [-> [E Ea]]]]]; rewrite H in E; simpl in E.
      * left; exact E.
      * exfalso; exact (Hno s p E).
      * right. split; [exact (get_object_comment _ _ _ _ _ _ Eg)|]. auto.
    + destruct (update_action_keeps_or_ok cfg qo fuel st req true o)
        as [E|[[s [p E]]|[c [-> [E Ea]]]]]; rewrite H in E; simpl in E.
      * left; exact E.
      * exfalso; exact (Hno s p E).
      * right. split; [exact (get_object_comment _ _ _ _ _ _ Eg)|]. auto.
    + inversion H; subst. exfalso. exact (Hno 204 PNone eq_refl).
  - left. destruct (method req); try (inversion H; reflexivity).
    destruct (create_action_keeps_or_ok r st req) as [E|[s [p E]]];
      rewrite H in E; simpl in E; [exact E | exfalso; exact (Hno s p E)].
Qed.

(** [PageNumberPagination] cuts the rows into [num_pages] pages of at most
    [size] rows which, read in order, give back all the rows; there is
    always at least one page, so an empty listing has an empty first
    page rather than none. *)
Theorem pages_partition_rows {A} size (rows : list A) :
  0 < size ->
  1 <= num_pages (length rows) size /\
  concat (map (fun k => firstn size (skipn (k * size) rows))
              (seq 0 (num_pages (length rows) size))) = rows /\
  Forall (fun pg => length pg <= size)
         (map (fun k => firstn size (skipn (k * size) rows))
              (seq 0 (num_pages (length rows) size))).
Proof.
  intros Hs. split; [destruct (num_pages_pos (length rows) size); lia|]. split.
  - apply pages_concat, num_pages_cover, Hs.
  - apply List.Forall_forall. intros pg Hpg. apply in_map_iff in Hpg as [k [<- _]].
    apply firstn_le_length.
Qed.

Lemma pages_partition_rows_witness :
  0 < 2 /\ concat (map (fun k => firstn 2 (skipn (k * 2) [1; 2; 3]))
                       (seq 0 (num_pages (length [1; 2; 3]) 2))) = [1; 2; 3].
Proof. split; [lia|]. exact (proj1 (proj2 (pages_partition_rows 2 [1; 2; 3] ltac:(lia)))). Defined.



(* ------------------------------------------------------------------ *)
(** ** The order of the post listing *)

Lemma insert_by_created_perm p l : Permutation (insert_by_created p l) (p :: l).
Proof.
  induction l as [|q l IH]; simpl; [reflexivity|].
  destruct (p_created q <? p_created p); [reflexivity|].
  rewrite IH. apply perm_swap.
Qed.

Lemma insert_by_created_sorted p l :
  Sorted (fun x y => p_created y <= p_created x) l ->
  Sorted (fun x y => p_created y <= p_created x) (insert_by_created p l).
Proof.
  induction l as [|q l IH]; intros Hs; simpl; [repeat constructor|].
  destruct (Nat.ltb_spec (p_created q) (p_created p)).
  - constructor; [exact Hs | constructor; lia].
  - apply Sorted_inv in Hs as [Hs Hh]. constructor; [apply IH, Hs|].
    destruct l as [|q' l]; simpl; [constructor; lia|].
    apply HdRel_inv in Hh.
    destruct (p_created q' <? p_created p); constructor; lia.
Qed.

Lemma sorted_desc_below t q l :
  Sorted (fun x y => p_created y <= p_created x) (q :: l) -> p_created q < t ->
  List.filter (fun x => p_created x =? t) (q :: l) = [].
Proof.
  intros Hs Hq. apply filter_none. intros x Hx.
  apply Nat.eqb_neq.
  apply Sorted_StronglySorted in Hs; [|intros a b c ? ?; lia].
  destruct Hx as [<-|Hx]; [lia|].
  apply StronglySorted_inv in Hs as [_ Hf].
  rewrite List.Forall_forall in Hf. specialize (Hf x Hx). lia.
Qed.

Lemma insert_by_created_filter t p l :
  Sorted (fun x y => p_created y <= p_created x) l ->
  List.filter (fun x => p_created x =? t) (insert_by_created p l) =
  List.filter (fun x => p_created x =? t) l ++
    (if p_created p =? t then [p] else []).
Proof.
  induction l as [|q l IH]; intros Hs; simpl; [destruct (p_created p =? t); reflexivity|].
  destruct (Nat.ltb_spec (p_created q) (p_created p)).
  - destruct (Nat.eqb_spec (p_created p) t).
    + subst t. pose proof (sorted_desc_below (p_created p) q l Hs ltac:(lia)) as H0.
      simpl. rewrite Nat.eqb_refl. simpl in H0. rewrite H0. reflexivity.
    + simpl. destruct (Nat.eqb_spec (p_created p) t); [contradiction|]. rewrite app_nil_r. reflexivity.
  - apply Sorted_inv in Hs as [Hs _]. simpl. rewrite (IH Hs).
    destruct (p_created q =? t); reflexivity.
Qed.

Lemma post_order_rev (l : list Post) :
  Permutation (fold_right insert_by_created [] (rev l)) l /\
  Sorted (fun x y => p_created y <= p_created x) (fold_right insert_by_created [] (rev l)) /\
  forall t, List.filter (fun x => p_created x =? t) (fold_right insert_by_created [] (rev l)) =
            List.filter (fun x => p_created x =? t) l.
Proof.
  induction l as [|p l IH] using rev_ind; [simpl; repeat constructor|].
  rewrite rev_app_distr. simpl. destruct IH as [Hp [Hs Hf]].
  split; [|split].
  - rewrite insert_by_created_perm, Hp. apply Permutation_cons_append.
  - apply insert_by_created_sorted, Hs.
  - intros t. rewrite (insert_by_created_filter t p _ Hs), Hf, List.filter_app. simpl.
    destruct (p_created p =? t); reflexivity.
Qed.

Lemma drf_defaults_valid : valid_config drf_defaults.
Proof. split; [intros l; reflexivity | intros st; reflexivity]. Qed.

Lemma post_queryset_perm cfg keep st :
  valid_config cfg -> Permutation (post_queryset cfg keep st) (List.filter keep (posts st)).
Proof.
  intros [Hdb _]. unfold post_queryset.
  rewrite (proj1 (post_order_rev _)). apply Hdb.
Qed.



Lemma paginate_some {A} size param (rows : list A) page :
  paginate size param rows = Some page ->
  exists k, k < num_pages (length rows) size /\ page = firstn size (skipn (k * size) rows).
Proof.
  unfold paginate. cbv zeta. intros H.
  match type of H with
  | (match ?m with None => None | Some _ => _ end) = _ => destruct m as [z|]
  end; [|discriminate].
  destruct ((z <? 1)%Z || (Z.of_nat (num_pages (length rows) size) <? z)%Z) eqn:E;
    [discriminate|].
  apply orb_false_iff in E as [E1 E2]. apply Z.ltb_ge in E1, E2.
  inversion H; subst page. exists (Z.to_nat z - 1). split; [lia | reflexivity].
Qed.

Lemma paginate_first {A} size param (rows : list A) :
  0 < size -> param = None \/ param = Some "" ->
  paginate size param rows = Some (firstn size rows).
Proof.
  intros Hs Hp. unfold paginate. destruct (num_pages_pos (length rows) size) as [Hnp|]; [|lia].
  destruct Hp as [->| ->];
  (destruct ((1 <? 1)%Z || (Z.of_nat (num_pages (length rows) size) <? 1)%Z) eqn:E;
   [apply orb_true_iff in E as [E|E]; apply Z.ltb_lt in E; lia | reflexivity]).
Qed.

(** The post list (GET or HEAD on the list route) changes nothing. An
    invalid filter value is a 400 and an exception of the filter backends
    a 500; otherwise the answer is 404 (a [page] that selects no page) or
    200 with [count] the number of posts the filters keep and a page of
    the ordered queryset: the [k]-th slice of at most 10 posts for some
    page [k]; without a [page] parameter it is the first 10 posts, and
    without filter parameters the filters keep every post. *)
Theorem post_list_response cfg qo fuel st req :
  valid_config cfg -> target req = None -> (method req = GET \/ method req = HEAD) ->
  fst (handle cfg qo fuel RPost st req) = st /\
  ((exists es, post_filter cfg (other_params req) st = VErrs es /\
               snd (handle cfg qo fuel RPost st req) = BadRequest es) \/
   (post_filter cfg (other_params req) st = VCrash /\
    snd (handle cfg qo fuel RPost st req) = ServerError) \/
   exists keep, post_filter cfg (other_params req) st = VOk keep /\
     ((page_param req = None \/ page_param req = Some "") ->
      snd (handle cfg qo fuel RPost st req) =
      Ok 200 (PPosts (length (List.filter keep (posts st))) (firstn 10 (post_queryset cfg keep st)))) /\
     (snd (handle cfg qo fuel RPost st req) = NotFound \/
      exists k page,
        snd (handle cfg qo fuel RPost st req) =
          Ok 200 (PPosts (length (List.filter keep (posts st))) page) /\
        k < num_pages (length (List.filter keep (posts st))) 10 /\
        page = firstn 10 (skipn (k * 10) (post_queryset cfg keep st)) /\ length page <= 10)) /\
  (other_params req = [] -> page_param req = None ->
   snd (handle cfg qo fuel RPost st req) =
   Ok 200 (PPosts (length (posts st)) (firstn 10 (post_queryset cfg (fun _ => true) st)))).
Proof.
  intros Hv Ht Hm.
  assert (Hc : check_permissions cfg RPost req = true).
  { unfold check_permissions, has_permission. destruct Hm as [-> | ->]; reflexivity. }
  assert (Hh : handle cfg qo fuel RPost st req = (st, list_action cfg qo fuel RPost st req)).
  { unfold handle. rewrite Hc, Ht. simpl. destruct Hm as [-> | ->]; reflexivity. }
  assert (Hlen : forall keep, length (post_queryset cfg keep st) = length (List.filter keep (posts st)))
    by (intros keep; apply Permutation_length, post_queryset_perm, Hv).
  assert (Hok : forall keep, post_filter cfg (other_params req) st = VOk keep ->
    ((page_param req = None \/ page_param req = Some "") ->
      snd (handle cfg qo fuel RPost st req) =
      Ok 200 (PPosts (length (List.filter keep (posts st))) (firstn 10 (post_queryset cfg keep st)))) /\
     (snd (handle cfg qo fuel RPost st req) = NotFound \/
      exists k page,
        snd (handle cfg qo fuel RPost st req) =
          Ok 200 (PPosts (length (List.filter keep (posts st))) page) /\
        k < num_pages (length (List.filter keep (posts st))) 10 /\
        page = firstn 10 (skipn (k * 10) (post_queryset cfg keep st)) /\ length page <= 10)).
  { intros keep Hf. rewrite Hh. simpl. unfold list_action. rewrite Hf. split.
    - intros Hp. rewrite (paginate_first 10 _ _ ltac:(lia) Hp), Hlen. reflexivity.
    - destruct (paginate 10 (page_param req) (post_queryset cfg keep st)) as [page|] eqn:Ep;
        [|left; reflexivity].
      right. apply paginate_some in Ep as [k [Hk ->]]. rewrite Hlen in Hk |- *.
      exists k, (firstn 10 (skipn (k * 10) (post_queryset cfg keep st))).
      split; [reflexivity|]. split; [exact Hk|]. split; [reflexivity|]. apply firstn_le_length. }
  split; [rewrite Hh; reflexivity|]. split.
  - destruct (post_filter cfg (other_params req) st) as [keep|es|] eqn:Ef.
    + right; right. exists keep. split; [reflexivity|]. apply Hok; reflexivity.
    + left. exists es. split; [reflexivity|]. rewrite Hh. simpl. unfold list_action.
      rewrite Ef. reflexivity.
    + right; left. split; [reflexivity|]. rewrite Hh. simpl. unfold list_action.
      rewrite Ef. reflexivity.
  - intros Ho Hp. assert (Hf : post_filter cfg (other_params req) st = VOk (fun _ => true))
      by (rewrite Ho; apply (proj2 Hv)).
    rewrite (proj1 (Hok _ Hf) (or_introl Hp)), filter_all; [reflexivity|]. reflexivity.
Qed.

Lemma post_list_response_witness :
  (valid_config drf_defaults /\ target (get_req None None None) = None /\
   (method (get_req None None None) = GET \/ method (get_req None None None) = HEAD)) /\
  snd (handle drf_defaults (fun l => l) 3 RPost two_posts_store (get_req None None None)) =
  Ok 200 (PPosts 2 [second; intro]).
Proof.
  split; [split; [exact drf_defaults_valid | split; [reflexivity | left; reflexivity]]|].
  rewrite (proj2 (proj2 (post_list_response drf_defaults (fun l => l) 3 two_posts_store
             (get_req None None None) drf_defaults_valid eq_refl (or_introl eq_refl))) eq_refl eq_refl).
  vm_compute. reflexivity.
Defined.

(* ------------------------------------------------------------------ *)
(** ** The [post_id] filter of the comment endpoints *)




(** The [post_id] filter applies to the detail routes too: a comment
    that is not on the post named by [post_id] is not found, for every
    method but POST and OPTIONS and every caller the permission check
    admits, and nothing is changed. *)
Theorem detail_outside_post_not_found cfg qo fuel st req s z i :
  post_id_param req = Some s -> s <> "" -> python_int s = Some z ->
  target req = Some i -> method req <> POST -> method req <> OPTIONS ->
  check_permissions cfg RComment req = true ->
  (forall c, In c (comments st) -> c_id c = i -> Z.of_nat (c_post c) <> z) ->
  handle cfg qo fuel RComment st req = (st, NotFound).
Proof.
  intros Hp Hs Hz Ht Hm1 Hm2 Hc Hno. unfold handle. rewrite Hc, Ht. cbn [negb].
  assert (Hg : get_object cfg RComment st req i = VOk None).
  { simpl. rewrite Hp. unfold comment_queryset.
    destruct s as [|a s]; [contradiction|]. rewrite Hz. f_equal.
    destruct (List.find (fun c => c_id c =? i)
               (List.filter (fun c => (Z.of_nat (c_post c) =? z)%Z) (comments st))) as [c|] eqn:Ef;
      [|reflexivity].
    apply find_some in Ef as [Hin Hi]. apply filter_In in Hin as [Hin Hz'].
    apply Nat.eqb_eq in Hi. apply Z.eqb_eq in Hz'. exfalso. exact (Hno c Hin Hi Hz'). }
  destruct (method req); try contradiction; rewrite Hg; reflexivity.
Qed.

(** Alice asks to delete comment 1 of post 1 through [?post_id=2]. *)
Lemma detail_outside_post_not_found_witness :
  handle drf_defaults (fun l => l) 5 RComment thread_store
    (mkRequest DELETE (Some 1) (Some 1) ∅ (Some "2") None 9) = (thread_store, NotFound).
Proof.
  apply (detail_outside_post_not_found drf_defaults (fun l => l) 5 thread_store
           (mkRequest DELETE (Some 1) (Some 1) ∅ (Some "2") None 9) "2" 2%Z 1);
    try reflexivity; try discriminate.
  intros c Hc Hi. simpl in Hc.
  destruct Hc as [<-|[<-|[<-|[]]]]; simpl; lia.
Defined.

Lemma failed_request_keeps_store_witness :
  handle drf_defaults (fun l => l) 5 RComment thread_store
    (mkRequest POST None None ∅ None None 9) = (thread_store, Denied) /\
  (thread_store = thread_store \/
   (RComment = RComment /\
    (method (mkRequest POST None None ∅ None None 9) = PUT \/
     method (mkRequest POST None None ∅ None None 9) = PATCH) /\
    Denied = ServerError /\ atomic_requests drf_defaults = false)).
Proof.
  split; [vm_compute; reflexivity|].
  apply (failed_request_keeps_store drf_defaults (fun l => l) 5 RComment thread_store
           (mkRequest POST None None ∅ None None 9) thread_store Denied).
  - vm_compute. reflexivity.
  - intros s p. discriminate.
Defined.

(* ------------------------------------------------------------------ *)
(** ** The parent order of the comment table *)

Lemma acyclic_same st st' :
  comments st' = comments st -> next_comment st' = next_comment st ->
  acyclic_store st -> acyclic_store st'.
Proof. unfold acyclic_store, comment_ids. intros -> ->. exact id. Qed.

Lemma acyclic_filter st st' (P : Comment -> bool) :
  comments st' = List.filter P (comments st) -> next_comment st' = next_comment st ->
  acyclic_store st -> acyclic_store st'.
Proof.
  unfold acyclic_store, comment_ids. intros -> -> [Hnd Hlt]. split.
  - apply NoDup_map_filter, Hnd.
  - intros d Hd. apply filter_In in Hd as [Hd _]. apply Hlt, Hd.
Qed.

Lemma validate_comment_parent st partial body d :
  validate_comment st partial body = VOk d ->
  forall q, cd_parent d = Some (Some q) -> In q (comments st).
Proof.
  unfold validate_comment. intros H q Hq.
  destruct (crashed _ || _ || _); [discriminate|].
  destruct (err_name "post" _ ++ _ ++ _); [|discriminate].
  inversion H; subst d; simpl in Hq. clear H.
  unfold field_value in Hq.
  destruct (parent_field st partial (body !! "parent")) as [a| | |] eqn:E; try discriminate.
  inversion Hq; subst a. clear Hq.
  unfold parent_field in E.
  assert (Hpk : forall z, (if (z <? 0)%Z then FErr "does_not_exist"
                          else match find_comment st (Z.to_nat z) with
                               | Some c => FOk (Some c)
                               | None => FErr "does_not_exist" end) = FOk (Some q) ->
                          In q (comments st)).
  { intros z Hz. destruct (z <? 0)%Z; [discriminate|].
    destruct (find_comment st (Z.to_nat z)) as [c|] eqn:Ec; [|discriminate].
    inversion Hz; subst c. apply find_some in Ec. apply Ec. }
  destruct (body !! "parent") as [[| |z|[|a s]|]|]; try discriminate.
  - exact (Hpk z E).
  - destruct (python_int (String a s)); [exact (Hpk _ E) | discriminate].
  - unfold missing in E. destruct partial; discriminate.
Qed.

Lemma acyclic_create_comment st u n l d st' c :
  (forall q, cd_parent d = Some (Some q) -> In q (comments st)) ->
  create_comment st u n l d = Some (st', c) -> acyclic_store st -> acyclic_store st'.
Proof.
  unfold create_comment. intros Hpar H [Hnd Hlt].
  destruct (cd_post d), (cd_content d); try discriminate.
  inversion H; subst st' c; clear H. unfold acyclic_store, comment_ids; simpl. split.
  - rewrite map_app. apply nodup_app_intro; [exact Hnd | constructor; [intros []|constructor] |].
    intros x Hx [<-|[]]. apply in_map_iff in Hx as [e [He He']].
    destruct (Hlt e He') as [Hl _]. simpl in He. lia.
  - intros e He. apply in_app_iff in He as [He|[<-|[]]].
    + destruct (Hlt e He) as [Hl Hp]. split; [lia | exact Hp].
    + simpl. split; [lia|]. intros x Hx.
      destruct (cd_parent d) as [[q|]|]; try discriminate.
      inversion Hx; subst x. destruct (Hlt q (Hpar q eq_refl)) as [Hl _]. exact Hl.
Qed.

Lemma update_action_other_comments cfg qo fuel st req partial o :
  (forall c, o <> OComment c) ->
  comments (fst (update_action cfg qo fuel st req partial o)) = comments st /\
  next_comment (fst (update_action cfg qo fuel st req partial o)) = next_comment st.
Proof.
  intros Ho. destruct o as [p|c|c|t]; [| exfalso; exact (Ho c eq_refl) | |];
    unfold update_action, outcome_of; repeat case_match; simpl; subst; auto.
  all: match goal with H : update_post _ _ _ _ = _ |- _ => inversion H; subst; auto end.
Qed.

Lemma create_action_other_comments r st req :
  r <> RComment ->
  comments (fst (create_action r st req)) = comments st /\
  next_comment (fst (create_action r st req)) = next_comment st.
Proof.
  intros Hr. destruct r; [| contradiction | |]; unfold create_action, outcome_of.
  - destruct (validate_post st false (data req)) as [d| |]; simpl; auto.
    destruct (caller req); simpl; auto. unfold create_post.
    destruct (pd_title d), (pd_content d); simpl; auto.
  - destruct (validate_name _ _ _ _ _); simpl; auto.
  - destruct (validate_name _ _ _ _ _); simpl; auto.
Qed.

(** Every request except an update of a comment keeps the comment table
    in the shape the creation path gives it: unique keys below the
    sequence, and every parent older (smaller key) than its replies.
    Creating a comment can only point at an existing comment, and
    deletions only remove rows. *)
Theorem acyclic_preserved cfg qo fuel r st req :
  acyclic_store st ->
  (r = RComment -> method req <> PUT /\ method req <> PATCH) ->
  acyclic_store (fst (handle cfg qo fuel r st req)).
Proof.
  intros Hac Hr. unfold handle.
  destruct (check_permissions cfg r req); simpl; [|exact Hac].
  destruct (target req) as [i|].
  - destruct (method req) eqn:Em; simpl; try exact Hac;
      destruct (get_object cfg r st req i) as [[o|]|es|] eqn:Eg; simpl; try exact Hac;
      destruct (check_object_permissions cfg r req o); simpl; try exact Hac.
    + assert (Ho : forall c, o <> OComment c).
      { intros c ->. apply get_object_comment in Eg. destruct (Hr Eg). contradiction. }
      destruct (update_action_other_comments cfg qo fuel st req false o Ho).
      apply (acyclic_same st); assumption.
    + assert (Ho : forall c, o <> OComment c).
      { intros c ->. apply get_object_comment in Eg. destruct (Hr Eg). contradiction. }
      destruct (update_action_other_comments cfg qo fuel st req true o Ho).
      apply (acyclic_same st); assumption.
    + destruct o as [p|c|c|t]; simpl.
      * eapply acyclic_filter; [unfold delete_post; simpl; reflexivity | reflexivity | exact Hac].
      * eapply acyclic_filter; [unfold delete_comment; simpl; reflexivity | reflexivity | exact Hac].
      * exact (acyclic_same st _ eq_refl eq_refl Hac).
      * exact (acyclic_same st _ eq_refl eq_refl Hac).
  - destruct (method req); simpl; try exact Hac.
    assert (Hd : r = RComment \/ r <> RComment) by (destruct r; [right|left|right|right]; congruence).
    destruct Hd as [->|Hne].
    + unfold create_action, outcome_of.
      destruct (validate_comment st false (data req)) as [d| |] eqn:Ev; simpl; try exact Hac.
      destruct (caller req) as [u|]; simpl; [|exact Hac].
      destruct (create_comment st u (now req) (now req + tick req) d) as [[st' c]|] eqn:Ec;
        simpl; [|exact Hac].
      exact (acyclic_create_comment st u (now req) (now req + tick req) d st' c
               (validate_comment_parent st false (data req) d Ev) Ec Hac).
    + destruct (create_action_other_comments r st req Hne).
      apply (acyclic_same st); assumption.
Qed.

(** Bob replies to comment 3 of the thread. *)
Lemma acyclic_preserved_witness :
  acyclic_store (fst (handle drf_defaults (fun l => l) 5 RComment thread_store
    (mkRequest POST (Some 2) None
       (<["post":=VStr "Intro"]> (<["content":=VStr "me too"]> (<["parent":=VInt 3]> ∅)))
       None None 9))).
Proof.
  apply acyclic_preserved; [exact thread_store_acyclic|].
  intros _. split; discriminate.
Defined.

Lemma map_update_ids (l : list Comment) i c' :
  c_id c' = i ->
  map c_id (map (fun x => if c_id x =? i then c' else x) l) = map c_id l.
Proof.
  intros Hc. rewrite map_map. apply map_ext. intros x.
  destruct (Nat.eqb_spec (c_id x) i); congruence.
Qed.

Lemma in_map_update (l : list Comment) i c c' :
  In c l -> c_id c = i -> In c' (map (fun x => if c_id x =? i then c' else x) l).
Proof.
  intros Hc Hi. apply in_map_iff. exists c. rewrite Hi, Nat.eqb_refl. split; [reflexivity | exact Hc].
Qed.

(** A PATCH that names a comment as its own parent passes validation:
    the [parent] field only checks that the key exists. In a table with
    unique keys, the comment's author sending [{"parent": <its own id>}]
    has the row saved with the comment as its own parent; the recursive
    representation read back for the answer never finishes, so the
    answer is a server error, and the saved row stays unless
    [ATOMIC_REQUESTS] rolls the request back. Once it stays, retrieving
    the comment is a server error too. *)
Theorem self_parent_patch cfg qo fuel st req c :
  valid_order qo -> List.NoDup (comment_ids st) -> In c (comments st) ->
  method req = PATCH -> target req = Some (c_id c) -> post_id_param req = None ->
  caller req = Some (c_author c) ->
  data req = <["parent" := VInt (Z.of_nat (c_id c))]> ∅ ->
  exists st' c',
    handle cfg qo fuel RComment st req =
      (if atomic_requests cfg then st else st', ServerError) /\
    c_id c' = c_id c /\ c_parent c' = Some (c_id c') /\ In c' (comments st') /\
    comments st' = map (fun x => if c_id x =? c_id c then c' else x) (comments st) /\
    (forall f, serialize qo f st' c' = None) /\
    handle cfg qo fuel RComment st' (get_req None (Some (c_id c)) None) = (st', ServerError).
Proof.
  intros Hqo Hnd Hc Hm Ht Hp Hu Hd.
  pose proof (find_comment_id st c Hnd Hc) as Hf.
  assert (Hv : validate_comment st true (data req) = VOk (mkCommentData None None (Some (Some c)))).
  { unfold validate_comment. rewrite Hd.
    rewrite (lookup_insert_ne _ "parent" "post") by discriminate.
    rewrite (lookup_insert_ne _ "parent" "content") by discriminate.
    rewrite lookup_insert_eq, !lookup_empty. simpl.
    destruct (Z.ltb_spec (Z.of_nat (c_id c)) 0); [lia|]. rewrite Nat2Z.id, Hf. reflexivity. }
  set (c' := {| c_id := c_id c; c_post := c_post c; c_content := c_content c;
                c_author := c_author c; c_parent := Some (c_id c);
                c_created := c_created c; c_updated := now req |}).
  set (st' := set_comments st (map (fun x => if c_id x =? c_id c then c' else x) (comments st))
                           (next_comment st)).
  assert (Hin : In c' (comments st')) by (apply (in_map_update _ _ c); auto).
  assert (Hnd' : List.NoDup (comment_ids st')).
  { unfold comment_ids. simpl. rewrite map_update_ids by reflexivity. exact Hnd. }
  assert (Hf' : find_comment st' (c_id c) = Some c') by apply (find_comment_id st' c' Hnd' Hin).
  assert (Hser : forall f, serialize qo f st' c' = None).
  { intros f. destruct (serialize qo f st' c') as [t|] eqn:Es; [|reflexivity].
    exfalso. apply (no_cycle qo st' f c' t 0 Hqo Hnd' Es).
    simpl. unfold parent_of. rewrite Hf'. reflexivity. }
  exists st', c'.
  split; [|split; [reflexivity|split; [reflexivity|split; [exact Hin|split; [reflexivity|split; [exact Hser|]]]]]].
  - unfold handle, check_permissions, check_object_permissions, has_permission,
      has_object_permission. rewrite Ht, Hm. simpl.
    rewrite Hu, Hp. simpl. unfold find_comment in Hf. rewrite Hf. simpl.
    rewrite Nat.eqb_refl. simpl.
    unfold update_action, outcome_of. rewrite Hv. simpl. fold c'. fold st'.
    rewrite Hser. reflexivity.
  - unfold handle. simpl. unfold find_comment in Hf'. simpl in Hf'. rewrite Hf'. simpl.
    rewrite Hser. reflexivity.
Qed.

(** Alice makes comment 1 of the thread its own parent; with the default
    [ATOMIC_REQUESTS = False] the row stays changed. *)
Lemma self_parent_patch_witness :
  exists st' c', handle drf_defaults (fun l => l) 5 RComment thread_store
      (mkRequest PATCH (Some 1) (Some 1) (<["parent" := VInt 1]> ∅) None None 9)
      = (st', ServerError) /\ c_parent c' = Some (c_id c') /\ In c' (comments st') /\
    handle drf_defaults (fun l => l) 5 RComment st' (get_req None (Some 1) None) = (st', ServerError).
Proof.
  destruct (self_parent_patch drf_defaults (fun l => l) 5 thread_store
              (mkRequest PATCH (Some 1) (Some 1) (<["parent" := VInt 1]> ∅) None None 9) cm1
              (fun l => Permutation_refl l) (proj1 thread_store_acyclic)
              (or_introl eq_refl) eq_refl eq_refl eq_refl eq_refl eq_refl)
    as [st' [c' [H1 [_ [H2 [H4 [_ [_ H3]]]]]]]].
  exists st', c'. split; [exact H1|]. split; [exact H2|]. split; [exact H4 | exact H3].
Defined.

(* ------------------------------------------------------------------ *)
(** ** Updates *)

Lemma handle_update_inv cfg qo fuel r st req i st' s pl :
  target req = Some i -> (method req = PUT \/ method req = PATCH) ->
  handle cfg qo fuel r st req = (st', Ok s pl) ->
  exists o partial, get_object cfg r st req i = VOk (Some o) /\
    check_object_permissions cfg r req o = true /\
    update_action cfg qo fuel st req partial o = (st', Ok s pl).
Proof.
  intros Ht Hm H. unfold handle in H. rewrite Ht in H.
  destruct (check_permissions cfg r req); simpl in H; [|discriminate].
  destruct Hm as [Hm|Hm]; rewrite Hm in H;
    destruct (get_object cfg r st req i) as [[o|]|es|]; try discriminate;
    destruct (check_object_permissions cfg r req o) eqn:Eo; simpl in H; try discriminate;
    eauto.
Qed.

Lemma object_author_caller cfg r req o a :
  r = RPost \/ r = RComment -> is_safe (method req) = false -> obj_author o = Some a ->
  check_object_permissions cfg r req o = true -> caller req = Some a.
Proof.
  intros Hr Hs Ha H. unfold check_object_permissions, has_object_permission in H.
  destruct Hr as [->| ->]; rewrite Hs, Ha in H; simpl in H;
    destruct (caller req) as [u|]; try discriminate;
    apply Nat.eqb_eq in H; congruence.
Qed.

Lemma unsafe_put_patch req : method req = PUT \/ method req = PATCH -> is_safe (method req) = false.
Proof. intros [-> | ->]; reflexivity. Qed.

(** A successful PUT or PATCH of a comment was sent by the comment's
    author and rewrites that one row only: the key, the author and the
    creation time are kept, [updated_at] is the request's time, and the
    other rows and tables are left as they were. The answer is 200 with
    the recursive representation of the saved comment, read in the new
    table. *)
Theorem comment_update_effect cfg qo fuel st req i st' s pl :
  target req = Some i -> (method req = PUT \/ method req = PATCH) ->
  handle cfg qo fuel RComment st req = (st', Ok s pl) ->
  exists c c' t, In c (comments st) /\ c_id c = i /\ caller req = Some (c_author c) /\
    s = 200 /\ serialize qo fuel st' c' = Some t /\ pl = PComment t /\
    c_id c' = i /\ c_author c' = c_author c /\ c_created c' = c_created c /\
    c_updated c' = now req /\
    st' = set_comments st (map (fun x => if c_id x =? i then c' else x) (comments st))
                       (next_comment st).
Proof.
  intros Ht Hm H.
  destruct (handle_update_inv _ _ _ _ _ _ _ _ _ _ Ht Hm H) as [o [partial [Hg [Ho Hu]]]].
  simpl in Hg. destruct (comment_queryset st (post_id_param req)) as [rows|] eqn:Eq; [|discriminate].
  destruct (List.find (fun c => c_id c =? i) rows) as [c|] eqn:Ef; [|discriminate].
  inversion Hg; subst o; clear Hg.
  apply find_some in Ef as [Hc Hci]. apply Nat.eqb_eq in Hci.
  pose proof (object_author_caller cfg RComment req (OComment c) (c_author c) (or_intror eq_refl)
                (unsafe_put_patch req Hm) eq_refl Ho).
  unfold update_action, outcome_of in Hu.
  destruct (validate_comment st partial (data req)) as [d| |]; try discriminate.
  unfold update_comment in Hu.
  match type of Hu with
  | (match ?m with Some _ => _ | None => _ end) = _ => destruct m as [t|] eqn:Es
  end; [|destruct (atomic_requests cfg); discriminate].
  inversion Hu; subst.
  eexists c, _, t. split; [|split; [|split; [|split; [|split; [exact Es|]]]]];
    repeat split; try reflexivity; try assumption.
  apply (comment_queryset_sub st (post_id_param req) rows c Eq Hc).
Qed.

Lemma comment_update_effect_witness :
  exists c c' t, In c (comments thread_store) /\ c_id c = 3 /\
    caller (mkRequest PATCH (Some 1) (Some 3) (<["content" := VStr "edited"]> ∅) None None 9)
      = Some (c_author c) /\ c_updated c' = 9 /\
    snd (handle drf_defaults (fun l => l) 5 RComment thread_store
           (mkRequest PATCH (Some 1) (Some 3) (<["content" := VStr "edited"]> ∅) None None 9))
      = Ok 200 (PComment t).
Proof.
  destruct (comment_update_effect drf_defaults (fun l => l) 5 thread_store
              (mkRequest PATCH (Some 1) (Some 3) (<["content" := VStr "edited"]> ∅) None None 9) 3
              (fst (handle drf_defaults (fun l => l) 5 RComment thread_store
                      (mkRequest PATCH (Some 1) (Some 3) (<["content" := VStr "edited"]> ∅) None None 9)))
              200
              (match snd (handle drf_defaults (fun l => l) 5 RComment thread_store
                      (mkRequest PATCH (Some 1) (Some 3) (<["content" := VStr "edited"]> ∅) None None 9))
               with Ok _ p => p | _ => PNone end)
              eq_refl (or_intror eq_refl))
    as [c [c' [t [H1 [H2 [H3 [_ [_ [H5 [_ [_ [_ [H4 _]]]]]]]]]]]]].
  - vm_compute. reflexivity.
  - exists c, c', t. repeat split; try assumption.
    rewrite <- H5. vm_compute. reflexivity.
Defined.

Lemma find_post_filtered cfg st req i o :
  get_object cfg RPost st req i = VOk (Some o) ->
  exists p, o = OPost p /\ In p (posts st) /\ p_id p = i.
Proof.
  simpl. destruct (post_filter cfg (other_params req) st) as [keep| |]; try discriminate.
  destruct (List.find (fun p => p_id p =? i) (List.filter keep (posts st))) as [p|] eqn:Ef;
    [|discriminate].
  intros Hg. inversion Hg; subst o.
  apply find_some in Ef as [Hp Hpi]. apply filter_In in Hp as [Hp _].
  apply Nat.eqb_eq in Hpi. eauto.
Qed.

(** A successful PUT or PATCH of a post was sent by the post's author
    and rewrites that one row only: the key, the author and the creation
    time are kept, [updated_at] is the request's time, the tags are
    given without repetition, and the other rows and tables are left as
    they were. *)
Theorem post_update_effect cfg qo fuel st req i st' s pl :
  target req = Some i -> (method req = PUT \/ method req = PATCH) ->
  handle cfg qo fuel RPost st req = (st', Ok s pl) ->
  exists p p', In p (posts st) /\ p_id p = i /\ caller req = Some (p_author p) /\
    s = 200 /\ pl = PPost p' /\
    p_id p' = i /\ p_author p' = p_author p /\ p_created p' = p_created p /\
    p_updated p' = now req /\ (p_tags p' = p_tags p \/ List.NoDup (p_tags p')) /\
    st' = set_posts st (map (fun x => if p_id x =? i then p' else x) (posts st)) (next_post st).
Proof.
  intros Ht Hm H.
  destruct (handle_update_inv _ _ _ _ _ _ _ _ _ _ Ht Hm H) as [o [partial [Hg [Ho Hu]]]].
  apply find_post_filtered in Hg as [p [-> [Hp Hpi]]].
  pose proof (object_author_caller cfg RPost req (OPost p) (p_author p) (or_introl eq_refl)
                (unsafe_put_patch req Hm) eq_refl Ho).
  unfold update_action, outcome_of in Hu.
  destruct (validate_post st partial (data req)) as [d| |]; try discriminate.
  unfold update_post in Hu. inversion Hu; subst.
  eexists p, _. repeat split; try reflexivity; try assumption.
  simpl. destruct (pd_tags d); [right; apply NoDup_nodup | left; reflexivity].
Qed.

Lemma post_update_effect_witness :
  exists p p', In p (posts thread_store) /\ p_id p = 1 /\ p_updated p' = 9 /\
    caller (mkRequest PATCH (Some 1) (Some 1) (<["title" := VStr "Hello"]> ∅) None None 9)
      = Some (p_author p).
Proof.
  destruct (post_update_effect drf_defaults (fun l => l) 5 thread_store
              (mkRequest PATCH (Some 1) (Some 1) (<["title" := VStr "Hello"]> ∅) None None 9) 1
              (fst (handle drf_defaults (fun l => l) 5 RPost thread_store
                      (mkRequest PATCH (Some 1) (Some 1) (<["title" := VStr "Hello"]> ∅) None None 9)))
              200
              (PPost (mkPost 1 "Hello" "hello" (Some 1) [1] 0 9 1))
              eq_refl (or_intror eq_refl))
    as [p [p' [H1 [H2 [H3 [_ [_ [_ [_ [_ [H4 _]]]]]]]]]]].
  - vm_compute. reflexivity.
  - exists p, p'. repeat split; assumption.
Defined.

(* ------------------------------------------------------------------ *)
(** ** Unique names of categories and tags *)

Lemma NoDup_map_inj {A B} (f : A -> B) l x y :
  List.NoDup (map f l) -> In x l -> In y l -> f x = f y -> x = y.
Proof.
  induction l as [|a l IH]; intros Hnd Hx Hy Hf; [destruct Hx|].
  inversion Hnd as [|? ? Hn Hnd']; subst.
  destruct Hx as [<-|Hx], Hy as [<-|Hy]; try reflexivity.
  - exfalso. apply Hn. rewrite Hf. apply in_map, Hy.
  - exfalso. apply Hn. rewrite <- Hf. apply in_map, Hx.
  - apply IH; assumption.
Qed.

Section UniqueTable.

Context {A : Type} (key : A -> nat) (name : A -> string) (mk : nat -> string -> A).
Hypothesis key_mk : forall k s, key (mk k s) = k.
Hypothesis name_mk : forall k s, name (mk k s) = s.

Lemma unique_table_filter rows next (P : A -> bool) :
  unique_table key name rows next -> unique_table key name (List.filter P rows) next.
Proof.
  intros [H1 [H2 H3]]. split; [|split].
  - apply NoDup_map_filter, H1.
  - apply NoDup_map_filter, H2.
  - intros x Hx. apply filter_In in Hx as [Hx _]. apply H3, Hx.
Qed.

Lemma unique_table_append rows next s :
  (forall x, In x rows -> name x <> s) ->
  unique_table key name rows next ->
  unique_table key name (rows ++ [mk next s]) (S next).
Proof.
  intros Hs [H1 [H2 H3]]. split; [|split].
  - rewrite map_app. apply nodup_app_intro; [exact H1 | simpl; repeat constructor; intros []|].
    intros k Hk [Hk'|[]]. rewrite key_mk in Hk'. subst k.
    apply in_map_iff in Hk as [x [Hx Hin]]. specialize (H3 x Hin). lia.
  - rewrite map_app. apply nodup_app_intro; [exact H2 | simpl; repeat constructor; intros []|].
    intros k Hk [Hk'|[]]. rewrite name_mk in Hk'. subst k.
    apply in_map_iff in Hk as [x [Hx Hin]]. exact (Hs x Hin Hx).
  - intros x Hx. apply in_app_iff in Hx as [Hx|[<-|[]]].
    + specialize (H3 x Hx). lia.
    + rewrite key_mk. lia.
Qed.

Lemma map_update_absent rows j (y : A) :
  (forall x, In x rows -> key x <> j) ->
  map (fun x => if key x =? j then y else x) rows = rows.
Proof.
  induction rows as [|a rows IH]; intros H; simpl; [reflexivity|].
  destruct (Nat.eqb_spec (key a) j) as [E|E]; [exfalso; exact (H a (or_introl eq_refl) E)|].
  f_equal. apply IH. intros x Hx. apply H. right. exact Hx.
Qed.

Lemma unique_table_update rows next j s :
  (forall x, In x rows -> key x <> j -> name x <> s) ->
  In j (map key rows) ->
  unique_table key name rows next ->
  unique_table key name (map (fun x => if key x =? j then mk j s else x) rows) next.
Proof.
  intros Hs Hj [H1 [H2 H3]]. split; [|split].
  - rewrite map_map.
    rewrite (map_ext _ key); [exact H1|].
    intros x. destruct (Nat.eqb_spec (key x) j); [rewrite key_mk; congruence | reflexivity].
  - clear H3 Hj. induction rows as [|a rows IH]; simpl; [constructor|].
    inversion H1 as [|? ? Hn1 H1']; subst. inversion H2 as [|? ? Hn2 H2']; subst.
    assert (IH' : List.NoDup (map name (map (fun x => if key x =? j then mk j s else x) rows))).
    { apply IH; try assumption. intros x Hx. apply Hs. right. exact Hx. }
    destruct (Nat.eqb_spec (key a) j) as [E|E].
    + rewrite map_update_absent.
      * rewrite name_mk. constructor; [|exact H2'].
        intros Hin. apply in_map_iff in Hin as [x [Hx Hin]].
        apply (Hs x (or_intror Hin)); [|exact Hx].
        intros Hk. apply Hn1. rewrite E, <- Hk. apply in_map, Hin.
      * intros x Hx Hk. apply Hn1. rewrite E, <- Hk. apply in_map, Hx.
    + constructor; [|exact IH'].
      intros Hin. apply in_map_iff in Hin as [x [Hx Hin]].
      apply in_map_iff in Hin as [y [Hy Hin]].
      destruct (Nat.eqb_spec (key y) j).
      * subst x. rewrite name_mk in Hx. exact (Hs a (or_introl eq_refl) E (eq_sym Hx)).
      * subst x. apply Hn2. rewrite <- Hx. apply in_map, Hin.
  - intros x Hx. apply in_map_iff in Hx as [y [<- Hy]].
    destruct (Nat.eqb_spec (key y) j).
    + rewrite key_mk. apply in_map_iff in Hj as [z [<- Hz]]. apply H3, Hz.
    + apply H3, Hy.
Qed.

Lemma validate_name_create m rows body n :
  validate_name m (map (fun x => (key x, name x)) rows) None false body = VOk n ->
  exists s, n = Some s /\ forall x, In x rows -> name x <> s.
Proof.
  unfold validate_name, name_field. intros H.
  destruct (char_field (Some m) false (body !! "name")) as [s| | |] eqn:Ec.
  - destruct (existsb _ _) eqn:Ee; [discriminate|]. inversion H; subst n.
    exists s. split; [reflexivity|]. intros x Hx Hn.
    assert (Hin : existsb (fun '(i, n) => String.eqb n s && true)
                    (map (fun x => (key x, name x)) rows) = true).
    { apply existsb_exists. exists (key x, name x). split; [apply (in_map (fun x => (key x, name x))), Hx|].
      rewrite Hn, String.eqb_refl. reflexivity. }
    rewrite Ee in Hin. discriminate.
  - unfold char_field, missing in Ec. repeat case_match; discriminate.
  - discriminate.
  - discriminate.
Qed.

Lemma validate_name_update m rows j partial body n :
  validate_name m (map (fun x => (key x, name x)) rows) (Some j) partial body = VOk n ->
  forall s, n = Some s -> forall x, In x rows -> key x <> j -> name x <> s.
Proof.
  unfold validate_name, name_field. intros H s -> x Hx Hk Hname.
  destruct (char_field (Some m) partial (body !! "name")) as [t| | |]; try discriminate.
  - destruct (existsb _ _) eqn:Ee; [discriminate|]. inversion H; subst t.
    assert (Hin : existsb (fun '(i, n) => String.eqb n s && negb (i =? j))
                    (map (fun x => (key x, name x)) rows) = true).
    { apply existsb_exists. exists (key x, name x). split; [apply (in_map (fun x => (key x, name x))), Hx|].
      rewrite Hname, String.eqb_refl. simpl. destruct (Nat.eqb_spec (key x) j); [contradiction|reflexivity]. }
    rewrite Ee in Hin. discriminate.
Qed.

End UniqueTable.

Lemma name_kept_unique {A} (key : A -> nat) (name : A -> string) rows next c :
  unique_table key name rows next -> In c rows ->
  forall x, In x rows -> key x <> key c -> name x <> name c.
Proof.
  intros [_ [H2 _]] Hc x Hx Hk Hn. apply Hk. f_equal.
  exact (NoDup_map_inj name rows x c H2 Hx Hc Hn).
Qed.

Lemma names_ok_update cfg qo fuel st req partial o :
  (forall c, o = OCategory c -> In c (categories st)) ->
  (forall t, o = OTag t -> In t (tags st)) ->
  names_ok st -> names_ok (fst (update_action cfg qo fuel st req partial o)).
Proof.
  intros Hoc Hot [Hc Ht]. destruct o as [p|c|c|t]; unfold update_action, outcome_of.
  - destruct (validate_post st partial (data req)); [|split; assumption..].
    destruct (update_post st p (now req) a) eqn:E. unfold update_post in E.
    inversion E; subst. split; assumption.
  - destruct (validate_comment st partial (data req)); [|split; assumption..].
    destruct (update_comment st c (now req) a) as [st' c'] eqn:E. unfold update_comment in E.
    inversion E; subst.
    destruct (serialize qo fuel _ _); [|destruct (atomic_requests cfg)]; split; assumption.
  - specialize (Hoc c eq_refl).
    destruct (validate_name _ _ _ _ _) as [n| |] eqn:Ev; simpl; [|split; assumption..].
    split; [|exact Ht].
    apply (unique_table_update cat_id cat_name mkCategory (fun _ _ => eq_refl) (fun _ _ => eq_refl));
      [| apply in_map, Hoc | exact Hc].
    destruct n as [s|].
    + exact (validate_name_update cat_id cat_name _ _ _ _ _ _ Ev s eq_refl).
    + exact (name_kept_unique cat_id cat_name _ _ c Hc Hoc).
  - specialize (Hot t eq_refl).
    destruct (validate_name _ _ _ _ _) as [n| |] eqn:Ev; simpl; [|split; assumption..].
    split; [exact Hc|].
    apply (unique_table_update tag_id tag_name mkTag (fun _ _ => eq_refl) (fun _ _ => eq_refl));
      [| apply in_map, Hot | exact Ht].
    destruct n as [s|].
    + exact (validate_name_update tag_id tag_name _ _ _ _ _ _ Ev s eq_refl).
    + exact (name_kept_unique tag_id tag_name _ _ t Ht Hot).
Qed.

Lemma names_ok_create r st req : names_ok st -> names_ok (fst (create_action r st req)).
Proof.
  intros [Hc Ht]. destruct r; unfold create_action, outcome_of.
  - destruct (validate_post st false (data req)) as [d| |]; simpl; [|split; assumption..].
    destruct (caller req); simpl; [|split; assumption]. unfold create_post.
    destruct (pd_title d), (pd_content d); simpl; split; assumption.
  - destruct (validate_comment st false (data req)) as [d| |]; simpl; [|split; assumption..].
    destruct (caller req); simpl; [|split; assumption]. unfold create_comment.
    destruct (cd_post d), (cd_content d); simpl; split; assumption.
  - destruct (validate_name _ _ _ _ _) as [n| |] eqn:Ev; simpl; [|split; assumption..].
    destruct (validate_name_create cat_id cat_name _ _ _ _ Ev) as [s [-> Hs]].
    split; [|exact Ht].
    exact (unique_table_append cat_id cat_name mkCategory (fun _ _ => eq_refl) (fun _ _ => eq_refl)
             _ _ s Hs Hc).
  - destruct (validate_name _ _ _ _ _) as [n| |] eqn:Ev; simpl; [|split; assumption..].
    destruct (validate_name_create tag_id tag_name _ _ _ _ Ev) as [s [-> Hs]].
    split; [exact Hc|].
    exact (unique_table_append tag_id tag_name mkTag (fun _ _ => eq_refl) (fun _ _ => eq_refl)
             _ _ s Hs Ht).
Qed.

Lemma names_ok_destroy st o : names_ok st -> names_ok (destroy_action st o).
Proof.
  intros [Hc Ht]. destruct o as [p|c|c|t]; simpl; split; try assumption.
  - apply unique_table_filter, Hc.
  - apply unique_table_filter, Ht.
Qed.

Lemma get_object_named cfg r st req i o :
  get_object cfg r st req i = VOk (Some o) ->
  (forall c, o = OCategory c -> In c (categories st)) /\ (forall t, o = OTag t -> In t (tags st)).
Proof.
  destruct r; simpl.
  - destruct (post_filter cfg (other_params req) st); [|discriminate..].
    destruct List.find; intros H; inversion H; subst; split; intros; discriminate.
  - destruct (comment_queryset st (post_id_param req)); [|discriminate].
    destruct List.find; intros H; inversion H; subst; split; intros; discriminate.
  - destruct (List.find (fun c => cat_id c =? i) (categories st)) as [c|] eqn:E; intros H;
      inversion H; subst. apply find_some in E as [E _].
    split; intros; [congruence | discriminate].
  - destruct (List.find (fun t => tag_id t =? i) (tags st)) as [t|] eqn:E; intros H;
      inversion H; subst. apply find_some in E as [E _].
    split; intros; [discriminate | congruence].
Qed.

(** Every request keeps the category and tag tables as [unique=True]
    wants them: keys unique and below their sequence, and no two rows
    with the same name. A new name is checked against every row, a
    changed name against every other row. *)
Theorem names_preserved cfg qo fuel r st req :
  names_ok st -> names_ok (fst (handle cfg qo fuel r st req)).
Proof.
  intros Hok. unfold handle.
  destruct (check_permissions cfg r req); simpl; [|exact Hok].
  destruct (target req) as [i|].
  - destruct (method req) eqn:Em; simpl; try exact Hok;
      destruct (get_object cfg r st req i) as [[o|]|es|] eqn:Eg; simpl; try exact Hok;
      destruct (check_object_permissions cfg r req o); simpl; try exact Hok;
      try (destruct (get_object_named cfg r st req i o Eg); apply names_ok_update; assumption).
    apply names_ok_destroy, Hok.
  - destruct (method req); simpl; try exact Hok. apply names_ok_create, Hok.
Qed.

(** Renaming tag 1 of the thread store. *)
Lemma names_preserved_witness :
  names_ok (fst (handle drf_defaults (fun l => l) 5 RTag thread_store
    (mkRequest PUT None (Some 1) (<["name" := VStr " Tech "]> ∅) None None 9))).
Proof.
  apply names_preserved. split; split; [|split| |split]; try (vm_compute; repeat constructor; intros []).
  - intros x [<-|[]]. simpl. lia.
  - intros x [<-|[]]. simpl. lia.
Defined.

(** Creating a category whose name, once stripped of surrounding white
    space, is the name of an existing category is a 400 naming the
    [name] field, and nothing is written. This is for a request the
    category viewset's permission classes admit. *)
Theorem duplicate_category_rejected cfg qo fuel st req s c :
  check_permissions cfg RCategory req = true ->
  target req = None -> method req = POST ->
  data req !! "name" = Some (VStr s) ->
  strip s <> "" -> String.length (strip s) <= 100 ->
  In c (categories st) -> cat_name c = strip s ->
  handle cfg qo fuel RCategory st req = (st, BadRequest ["name"]).
Proof.
  intros Hp Ht Hm Hd Hs Hl Hc Hn. unfold handle. rewrite Hp, Ht, Hm. simpl.
  unfold outcome_of, validate_name, name_field, char_field. rewrite Hd.
  destruct (String.eqb_spec (strip s) ""); [contradiction|].
  destruct (Nat.ltb_spec 100 (String.length (strip s))); [lia|].
  assert (Hex : existsb (fun '(i, n) => String.eqb n (strip s) && true)
                  (map (fun c => (cat_id c, cat_name c)) (categories st)) = true).
  { apply existsb_exists. exists (cat_id c, cat_name c).
    split; [apply (in_map (fun c => (cat_id c, cat_name c))), Hc|].
    rewrite Hn, String.eqb_refl. reflexivity. }
  rewrite Hex. reflexivity.
Qed.

Lemma duplicate_category_rejected_witness :
  handle drf_defaults (fun l => l) 5 RCategory thread_store
    (mkRequest POST (Some 2) None (<["name" := VStr "  Tech "]> ∅) None None 9)
  = (thread_store, BadRequest ["name"]).
Proof.
  apply (duplicate_category_rejected _ _ _ _ _ "  Tech " (mkCategory 1 "Tech"));
    try reflexivity.
  - discriminate.
  - simpl. lia.
  - left. reflexivity.
Defined.

(* ------------------------------------------------------------------ *)
(** ** Deleting a category or a tag *)

(** Deleting a category removes it and keeps every post: [SET_NULL]
    clears the category of the posts that had it, the other posts are
    left as they were, and comments are untouched. *)
Theorem category_delete_set_null cfg qo fuel st req i st' s pl :
  target req = Some i -> method req = DELETE ->
  handle cfg qo fuel RCategory st req = (st', Ok s pl) ->
  (forall c, In c (categories st') -> cat_id c <> i) /\
  map p_id (posts st') = map p_id (posts st) /\
  (forall p, In p (posts st') -> p_category p <> Some i) /\
  (forall p, In p (posts st) -> p_category p <> Some i -> In p (posts st')) /\
  comments st' = comments st /\ tags st' = tags st.
Proof.
  intros Ht Hm H. unfold handle in H.
  destruct (check_permissions cfg RCategory req); simpl in H; [|discriminate].
  rewrite Ht, Hm in H. simpl in H.
  destruct (List.find (fun c => cat_id c =? i) (categories st)) as [c|] eqn:Ef; [|discriminate].
  cbn [option_map] in H.
  match type of H with context [if negb ?b then _ else _] => destruct b end;
    simpl in H; [|discriminate].
  inversion H; subst st'; clear H.
  apply find_some in Ef as [_ Hci]. apply Nat.eqb_eq in Hci. subst i.
  unfold delete_category; simpl. split; [|split; [|split; [|split; [|split; reflexivity]]]].
  - intros x Hx. apply filter_In in Hx as [_ Hx].
    destruct (Nat.eqb_spec (cat_id x) (cat_id c)); [discriminate | exact n].
  - rewrite map_map. apply map_ext. intros p.
    destruct (p_category p) as [k|]; [destruct (k =? cat_id c)|]; reflexivity.
  - intros p Hp. apply in_map_iff in Hp as [q [Eq Hq]]. subst p.
    destruct (p_category q) as [k|] eqn:Ek; [|simpl; rewrite Ek; discriminate].
    destruct (Nat.eqb_spec k (cat_id c)); [simpl; discriminate|]. rewrite Ek. congruence.
  - intros p Hp Hn. apply in_map_iff. exists p. split; [|exact Hp].
    destruct (p_category p) as [k|]; [|reflexivity].
    destruct (Nat.eqb_spec k (cat_id c)); [subst; contradiction | reflexivity].
Qed.

Lemma category_delete_set_null_witness :
  snd (handle drf_defaults (fun l => l) 5 RCategory thread_store
         (mkRequest DELETE None (Some 1) ∅ None None 9)) = Ok 204 PNone /\
  map p_id (posts (fst (handle drf_defaults (fun l => l) 5 RCategory thread_store
                          (mkRequest DELETE None (Some 1) ∅ None None 9)))) =
  map p_id (posts thread_store).
Proof.
  split; [vm_compute; reflexivity|].
  apply (proj1 (proj2 (category_delete_set_null drf_defaults (fun l => l) 5 thread_store
           (mkRequest DELETE None (Some 1) ∅ None None 9) 1
           (fst (handle drf_defaults (fun l => l) 5 RCategory thread_store
                   (mkRequest DELETE None (Some 1) ∅ None None 9))) 204 PNone
           eq_refl eq_refl ltac:(vm_compute; reflexivity)))).
Defined.

(** Deleting a tag removes it and keeps every post, each with the same
    tags except the deleted one; comments and categories are untouched. *)
Theorem tag_delete_untags cfg qo fuel st req i st' s pl :
  target req = Some i -> method req = DELETE ->
  handle cfg qo fuel RTag st req = (st', Ok s pl) ->
  (forall t, In t (tags st') -> tag_id t <> i) /\
  map p_id (posts st') = map p_id (posts st) /\
  Forall2 (fun p p' => forall k, In k (p_tags p') <-> In k (p_tags p) /\ k <> i)
          (posts st) (posts st') /\
  comments st' = comments st /\ categories st' = categories st.
Proof.
  intros Ht Hm H. unfold handle in H.
  destruct (check_permissions cfg RTag req); simpl in H; [|discriminate].
  rewrite Ht, Hm in H. simpl in H.
  destruct (List.find (fun t => tag_id t =? i) (tags st)) as [t|] eqn:Ef; [|discriminate].
  cbn [option_map] in H.
  match type of H with context [if negb ?b then _ else _] => destruct b end;
    simpl in H; [|discriminate].
  inversion H; subst st'; clear H.
  apply find_some in Ef as [_ Hti]. apply Nat.eqb_eq in Hti. subst i.
  unfold delete_tag; simpl. split; [|split; [|split]]; try split; try reflexivity.
  - intros x Hx. apply filter_In in Hx as [_ Hx].
    destruct (Nat.eqb_spec (tag_id x) (tag_id t)); [discriminate | exact n].
  - rewrite map_map. reflexivity.
  - induction (posts st) as [|p ps IH]; simpl; constructor; [|exact IH].
    intros k. simpl. rewrite filter_In.
    destruct (Nat.eqb_spec k (tag_id t)) as [E|E]; simpl.
    + split; [intros [_ F]; discriminate | intros [_ F]; contradiction].
    + split; [intros [F _]; split; assumption | intros [F _]; split; [assumption | reflexivity]].
Qed.

Lemma tag_delete_untags_witness :
  map p_id (posts (fst (handle drf_defaults (fun l => l) 5 RTag thread_store
                 (mkRequest DELETE None (Some 1) ∅ None None 9)))) = map p_id (posts thread_store).
Proof.
  apply (proj1 (proj2 (tag_delete_untags drf_defaults (fun l => l) 5 thread_store
           (mkRequest DELETE None (Some 1) ∅ None None 9) 1
           (fst (handle drf_defaults (fun l => l) 5 RTag thread_store (mkRequest DELETE None (Some 1) ∅ None None 9)))
           204 PNone eq_refl eq_refl ltac:(vm_compute; reflexivity)))).
Defined.

(* ------------------------------------------------------------------ *)
(** ** What a successful creation writes *)

Lemma char_field_ok m partial v s :
  char_field m partial v = FOk s ->
  s <> "" /\ forall k, m = Some k -> String.length s <= k.
Proof.
  unfold char_field, missing. intros H.
  destruct v as [[| |z|t|]|]; try discriminate; try (destruct partial; discriminate).
  - destruct m as [k|].
    + destruct (Nat.ltb_spec k (String.length (z_to_str z))); [discriminate|].
      inversion H; subst s. split; [apply z_to_str_nonempty | intros k' Hk; inversion Hk; subst; lia].
    + inversion H; subst s. split; [apply z_to_str_nonempty | discriminate].
  - destruct (String.eqb_spec (strip t) ""); [discriminate|].
    destruct m as [k|].
    + destruct (Nat.ltb_spec k (String.length (strip t))); [discriminate|].
      inversion H; subst s. split; [assumption | intros k' Hk; inversion Hk; subst; lia].
    + inversion H; subst s. split; [assumption | discriminate].
Qed.

Lemma char_field_not_skip m v : char_field m false v <> FSkip.
Proof. unfold char_field, missing. repeat case_match; discriminate. Qed.

Lemma slug_lookup_in {A} (slug : A -> string) rows w r :
  slug_lookup slug rows w = FOk r -> In r rows.
Proof.
  unfold slug_lookup. intros H.
  destruct (slug_matches slug rows w) as [|x [|y l]] eqn:E; try discriminate.
  inversion H; subst x. unfold slug_matches in E.
  assert (Hin : In r (match w with VNull => [] | _ =>
                        List.filter (fun r => String.eqb (slug r) (py_str w)) rows end))
    by (rewrite E; left; reflexivity).
  destruct w; try destruct Hin; apply filter_In in Hin; apply Hin.
Qed.

Lemma slug_field_in {A} (slug : A -> string) rows partial v r :
  slug_field slug rows partial v = FOk r -> In r rows.
Proof.
  unfold slug_field, missing. intros H.
  destruct v as [w|]; [|destruct partial; discriminate].
  destruct w as [| | |[|a s]|]; try discriminate; apply (slug_lookup_in slug rows _ _ H).
Qed.

Lemma slug_field_not_skip {A} (slug : A -> string) rows v : slug_field slug rows false v <> FSkip.
Proof.
  unfold slug_field, missing, slug_lookup. repeat case_match; discriminate.
Qed.

Lemma many_slug_field_in {A} (slug : A -> string) rows partial v rs :
  many_slug_field slug rows partial v = FOk rs -> forall r, In r rs -> In r rows.
Proof.
  unfold many_slug_field, missing. intros H.
  destruct v as [[| | | |items]|]; try discriminate; [|destruct partial; discriminate].
  revert rs H. induction items as [|item items IH]; intros rs H r Hr; simpl in H.
  - inversion H; subst rs. destruct Hr.
  - destruct (slug_lookup slug rows item) as [x| | |] eqn:Ex;
      destruct (fold_right _ (FOk []) items) as [xs| | |] eqn:Exs; try discriminate.
    + inversion H; subst rs. destruct Hr as [<-|Hr].
      * exact (slug_lookup_in slug rows item x Ex).
      * exact (IH xs eq_refl r Hr).
    + exact (IH rs H r Hr).
Qed.

Lemma err_name_nil {A} n (f : FieldResult A) : err_name n f = [] -> forall e, f <> FErr e.
Proof. intros H e ->. discriminate. Qed.

Lemma validate_post_ok st partial body d :
  validate_post st partial body = VOk d ->
  (forall t, pd_title d = Some t -> t <> "" /\ String.length t <= 300) /\
  (forall s, pd_content d = Some s -> s <> "") /\
  (forall c, pd_category d = Some c -> In c (categories st)) /\
  (forall ts, pd_tags d = Some ts -> forall t, In t ts -> In t (tags st)) /\
  (partial = false -> pd_category d <> None).
Proof.
  unfold validate_post. intros H.
  destruct (crashed _ || _ || _ || _) eqn:Ec; [discriminate|].
  destruct (err_name "title" _ ++ _ ++ _ ++ _) eqn:Ee; [|discriminate].
  inversion H; subst d; clear H. simpl.
  apply app_eq_nil in Ee as [_ Ee]. apply app_eq_nil in Ee as [_ Ee].
  apply app_eq_nil in Ee as [Ecat _].
  apply orb_false_iff in Ec as [Ec _]. apply orb_false_iff in Ec as [_ Ecat'].
  unfold field_value. split; [|split; [|split; [|split]]].
  - intros t Ht. destruct (char_field (Some 300) partial (body !! "title")) eqn:E; try discriminate.
    inversion Ht; subst. destruct (char_field_ok _ _ _ _ E) as [H1 H2]. split; [exact H1 | apply H2; reflexivity].
  - intros s Hs. destruct (char_field None partial (body !! "content")) eqn:E; try discriminate.
    inversion Hs; subst. apply (char_field_ok _ _ _ _ E).
  - intros c Hc. destruct (slug_field cat_name (categories st) partial (body !! "category")) eqn:E;
      try discriminate.
    inversion Hc; subst. apply (slug_field_in _ _ _ _ _ E).
  - intros ts Hts. destruct (many_slug_field tag_name (tags st) partial (body !! "tag")) eqn:E;
      try discriminate.
    inversion Hts; subst. apply (many_slug_field_in _ _ _ _ _ E).
  - intros -> Hn.
    destruct (slug_field cat_name (categories st) false (body !! "category")) eqn:E;
      try discriminate.
    + exact (slug_field_not_skip _ _ _ E).
Qed.

Lemma validate_comment_ok st partial body d :
  validate_comment st partial body = VOk d ->
  (forall p, cd_post d = Some p -> In p (posts st)) /\
  (forall s, cd_content d = Some s -> s <> "").
Proof.
  unfold validate_comment. intros H.
  destruct (crashed _ || _ || _) eqn:Ec; [discriminate|].
  destruct (err_name "post" _ ++ _ ++ _) eqn:Ee; [|discriminate].
  inversion H; subst d; clear H. simpl. unfold field_value. split.
  - intros p Hp. destruct (slug_field title (posts st) partial (body !! "post")) eqn:E; try discriminate.
    inversion Hp; subst. apply (slug_field_in _ _ _ _ _ E).
  - intros s Hs. destruct (char_field None partial (body !! "content")) eqn:E; try discriminate.
    inversion Hs; subst. apply (char_field_ok _ _ _ _ E).
Qed.

(** A post created with 201 is appended to the table under the next key
    of the sequence, with a non-blank title of at most 300 characters, a
    non-blank content, an existing category (the field is required),
    existing tags without repetition, [created_at] the clock reading of
    the request and [updated_at] the next reading, taken when the row is
    saved. *)
Theorem post_create_effect cfg qo fuel st req st' s pl :
  target req = None -> method req = POST ->
  handle cfg qo fuel RPost st req = (st', Ok s pl) ->
  exists p, s = 201 /\ pl = PPost p /\ p_id p = next_post st /\
    st' = set_posts st (posts st ++ [p]) (S (next_post st)) /\
    title p <> "" /\ String.length (title p) <= 300 /\ p_content p <> "" /\
    (exists c, In c (categories st) /\ p_category p = Some (cat_id c)) /\
    List.NoDup (p_tags p) /\
    (forall k, In k (p_tags p) -> exists t, In t (tags st) /\ tag_id t = k) /\
    p_created p = now req /\ p_updated p = now req + tick req.
Proof.
  intros Ht Hm H. unfold handle in H. rewrite Ht, Hm in H.
  destruct (check_permissions cfg RPost req); simpl in H; [|discriminate].
  unfold create_action, outcome_of in H.
  destruct (validate_post st false (data req)) as [d| |] eqn:Ev; try discriminate.
  destruct (validate_post_ok _ _ _ _ Ev) as [Hti [Hco [Hca [Hta Hreq]]]].
  destruct (caller req) as [u|]; [|discriminate].
  unfold create_post in H.
  destruct (pd_title d) as [t|] eqn:Et, (pd_content d) as [c|] eqn:Ecn; try discriminate.
  inversion H; subst; clear H.
  eexists. split; [reflexivity|]. split; [reflexivity|]. split; [reflexivity|].
  split; [reflexivity|]. simpl.
  destruct (Hti t eq_refl) as [Ht1 Ht2].
  split; [exact Ht1|]. split; [exact Ht2|]. split; [exact (Hco c eq_refl)|]. split.
  - destruct (pd_category d) as [k|] eqn:Ek; [|exfalso; exact (Hreq eq_refl eq_refl)].
    exists k. split; [exact (Hca k eq_refl) | reflexivity].
  - split; [|split; [|split; reflexivity]].
    + destruct (pd_tags d); [apply NoDup_nodup | constructor].
    + intros k Hk. destruct (pd_tags d) as [ts|] eqn:Es; [|destruct Hk].
      apply nodup_In, in_map_iff in Hk as [t' [<- Ht']].
      exists t'. split; [exact (Hta ts eq_refl t' Ht') | reflexivity].
Qed.

Lemma post_create_effect_witness :
  exists p, p_id p = 2 /\ title p = "Tips" /\ p_tags p = [1] /\
    fst (handle drf_defaults (fun l => l) 5 RPost thread_store
           (mkRequest POST (Some 2) None
              (<["title" := VStr " Tips"]> (<["content" := VStr "text"]>
                (<["category" := VStr "Tech"]> (<["tag" := VList [VStr "News"; VStr "News"]]> ∅))))
              None None 9))
    = set_posts thread_store (posts thread_store ++ [p]) 3.
Proof.
  destruct (post_create_effect drf_defaults (fun l => l) 5 thread_store
              (mkRequest POST (Some 2) None
                 (<["title" := VStr " Tips"]> (<["content" := VStr "text"]>
                   (<["category" := VStr "Tech"]> (<["tag" := VList [VStr "News"; VStr "News"]]> ∅))))
                 None None 9)
              (fst (handle drf_defaults (fun l => l) 5 RPost thread_store
                 (mkRequest POST (Some 2) None
                    (<["title" := VStr " Tips"]> (<["content" := VStr "text"]>
                      (<["category" := VStr "Tech"]> (<["tag" := VList [VStr "News"; VStr "News"]]> ∅))))
                    None None 9)))
              201 (PPost (mkPost 2 "Tips" "text" (Some 1) [1] 9 10 2)) eq_refl eq_refl)
    as [p [_ [Hpl [Hid [Hst _]]]]].
  - vm_compute. reflexivity.
  - exists p. inversion Hpl; subst p. split; [reflexivity|]. split; [reflexivity|].
    split; [reflexivity|]. exact Hst.
Defined.

(** A comment created with 201 is appended to the table under the next
    key of the sequence, on an existing post, with a non-blank content,
    a parent (if any) that is an existing comment, [created_at] the
    clock reading of the request and [updated_at] the next reading,
    taken when the row is saved. *)
Theorem comment_create_effect cfg qo fuel st req st' s pl :
  target req = None -> method req = POST ->
  handle cfg qo fuel RComment st req = (st', Ok s pl) ->
  exists c, s = 201 /\ pl = PCommentRow c /\ c_id c = next_comment st /\
    st' = set_comments st (comments st ++ [c]) (S (next_comment st)) /\
    c_content c <> "" /\
    (exists p, In p (posts st) /\ c_post c = p_id p) /\
    (forall q, c_parent c = Some q -> exists e, In e (comments st) /\ c_id e = q) /\
    c_created c = now req /\ c_updated c = now req + tick req.
Proof.
  intros Ht Hm H. unfold handle in H. rewrite Ht, Hm in H.
  destruct (check_permissions cfg RComment req); simpl in H; [|discriminate].
  unfold create_action, outcome_of in H.
  destruct (validate_comment st false (data req)) as [d| |] eqn:Ev; try discriminate.
  destruct (validate_comment_ok _ _ _ _ Ev) as [Hpo Hco].
  pose proof (validate_comment_parent _ _ _ _ Ev) as Hpa.
  destruct (caller req) as [u|]; [|discriminate].
  unfold create_comment in H.
  destruct (cd_post d) as [p|] eqn:Ep, (cd_content d) as [c|] eqn:Ec; try discriminate.
  inversion H; subst; clear H.
  eexists. split; [reflexivity|]. split; [reflexivity|]. split; [reflexivity|].
  split; [reflexivity|]. simpl.
  split; [exact (Hco c eq_refl)|]. split; [exists p; split; [exact (Hpo p eq_refl) | reflexivity]|].
  split; [|split; reflexivity].
  intros q Hq. destruct (cd_parent d) as [[e|]|]; try discriminate.
  inversion Hq; subst q. exists e. split; [exact (Hpa e eq_refl) | reflexivity].
Qed.

Lemma comment_create_effect_witness :
  exists c, c_id c = 4 /\ c_parent c = Some 2 /\
    fst (handle drf_defaults (fun l => l) 5 RComment thread_store
           (mkRequest POST (Some 2) None
              (<["post" := VStr "Intro"]> (<["content" := VStr "ok"]> (<["parent" := VStr "2"]> ∅)))
              None None 9))
    = set_comments thread_store (comments thread_store ++ [c]) 5.
Proof.
  destruct (comment_create_effect drf_defaults (fun l => l) 5 thread_store
              (mkRequest POST (Some 2) None
                 (<["post" := VStr "Intro"]> (<["content" := VStr "ok"]> (<["parent" := VStr "2"]> ∅)))
                 None None 9)
              (fst (handle drf_defaults (fun l => l) 5 RComment thread_store
                 (mkRequest POST (Some 2) None
                    (<["post" := VStr "Intro"]> (<["content" := VStr "ok"]> (<["parent" := VStr "2"]> ∅)))
                    None None 9)))
              201 (PCommentRow (mkComment 4 1 "ok" 2 (Some 2) 9 10)) eq_refl eq_refl)
    as [c [_ [Hpl [Hid [Hst _]]]]].
  - vm_compute. reflexivity.
  - exists c. inversion Hpl; subst c. split; [reflexivity|]. split; [reflexivity|]. exact Hst.
Defined.

(* ------------------------------------------------------------------ *)
(** ** Deletion removes the descendants and nothing else *)

Lemma collect_sound (P : nat -> Prop) cs fuel : forall seen batch,
  (forall i, In i seen -> P i) -> (forall i, In i batch -> P i) ->
  (forall d p, In d cs -> c_parent d = Some p -> P p -> P (c_id d)) ->
  forall x, In x (collect fuel cs seen batch) -> P x.
Proof.
  induction fuel as [|f IH]; intros seen batch Hs Hb Hcl x Hx; simpl in Hx; [exact (Hs x Hx)|].
  destruct (List.filter (fun i => negb (memb i seen)) batch) as [|n l] eqn:Ef; [exact (Hs x Hx)|].
  assert (Hfr : forall i, In i (n :: l) -> P i).
  { intros i Hi. rewrite <- Ef in Hi. apply filter_In in Hi as [Hi _]. exact (Hb i Hi). }
  refine (IH (seen ++ n :: l) _ _ _ Hcl x Hx).
  - intros i Hi. apply in_app_iff in Hi as [Hi|Hi]; [exact (Hs i Hi) | exact (Hfr i Hi)].
  - intros i Hi. apply in_map_iff in Hi as [d [<- Hd]]. apply filter_In in Hd as [Hd Hp].
    destruct (c_parent d) as [p|] eqn:Ep; [|discriminate].
    apply (Hcl d p Hd Ep). apply Hfr, memb_In, Hp.
Qed.

Lemma collect_descendants st batch :
  List.NoDup (comment_ids st) ->
  forall x, In x (collect_comments (comments st) batch) ->
  exists k b, In b batch /\ iter_parent st k x = Some b.
Proof.
  intros Hnd. apply (collect_sound (fun x => exists k b, In b batch /\ iter_parent st k x = Some b)).
  - intros i [].
  - intros i Hi. exists 0, i. split; [exact Hi | reflexivity].
  - intros d p Hd Hp [k [b [Hb Hk]]]. exists (S k), b. split; [exact Hb|].
    simpl. unfold parent_of. rewrite (find_comment_id st d Hnd Hd), Hp. exact Hk.
Qed.

(** In a table with unique keys, a successful DELETE removes exactly
    the rows [on_delete=CASCADE] reaches: deleting a post keeps every
    other post and every comment from which no chain of parents leads
    to a comment of that post; deleting a comment keeps every comment
    from which no chain of parents leads to it, and the posts. *)
Theorem delete_removes_exactly cfg qo fuel st req i st' :
  List.NoDup (comment_ids st) -> method req = DELETE -> target req = Some i ->
  (handle cfg qo fuel RPost st req = (st', Ok 204 PNone) ->
     (forall q, In q (posts st) -> (In q (posts st') <-> p_id q <> i)) /\
     (forall d, In d (comments st) ->
        (In d (comments st') <->
         forall e k, In e (comments st) -> c_post e = i -> iter_parent st k (c_id d) <> Some (c_id e)))) /\
  (handle cfg qo fuel RComment st req = (st', Ok 204 PNone) ->
     posts st' = posts st /\
     (forall d, In d (comments st) ->
        (In d (comments st') <-> forall k, iter_parent st k (c_id d) <> Some i))).
Proof.
  intros Hnd Hm Ht. split.
  - intros H. destruct (handle_delete_inv _ _ _ _ _ _ _ _ Hm Ht H) as [o [Hg ->]].
    apply find_post_filtered in Hg as [p [-> [_ Epi]]]. subst i.
    set (batch := map c_id (List.filter (fun d => c_post d =? p_id p) (comments st))).
    destruct (collect_comments_closed (comments st) batch) as [Hb Hcl].
    { intros x Hx. unfold batch in Hx. apply in_map_iff in Hx as [d [<- Hd]].
      apply in_map. apply filter_In in Hd; apply Hd. }
    unfold delete_post; simpl. fold batch. split.
    + intros q Hq. rewrite filter_In.
      destruct (Nat.eqb_spec (p_id q) (p_id p)) as [E|E]; simpl.
      * split; [intros [_ F]; discriminate | intros F; contradiction].
      * split; [intros _; exact E | intros _; split; [exact Hq | reflexivity]].
    + intros d Hd. rewrite filter_In. split.
      * intros [_ Hn] e k He Hei Hk.
        assert (Hin : In (c_id d) (collect_comments (comments st) batch)).
        { apply (closed_contains_descendants st _ Hcl k (c_id d) (c_id e) Hk).
          apply Hb. unfold batch. apply in_map, filter_In. split; [exact He|].
          apply Nat.eqb_eq. exact Hei. }
        apply memb_In in Hin. rewrite Hin in Hn. discriminate.
      * intros Hno. split; [exact Hd|].
        destruct (memb (c_id d) (collect_comments (comments st) batch)) eqn:Em; [|reflexivity].
        apply memb_In in Em. destruct (collect_descendants st batch Hnd _ Em) as [k [b [Hb' Hk]]].
        unfold batch in Hb'. apply in_map_iff in Hb' as [e [<- He]].
        apply filter_In in He as [He Hei]. apply Nat.eqb_eq in Hei.
        exfalso. exact (Hno e k He Hei Hk).
  - intros H. destruct (handle_delete_inv _ _ _ _ _ _ _ _ Hm Ht H) as [o [Hg ->]].
    simpl in Hg. destruct (comment_queryset st (post_id_param req)) as [rows|] eqn:Eq;
      [|discriminate].
    destruct (List.find (fun c => c_id c =? i) rows) as [c|] eqn:Ec; [|discriminate].
    inversion Hg; subst o; clear Hg.
    apply find_some in Ec as [Hc Eci]. apply Nat.eqb_eq in Eci. subst i.
    pose proof (comment_queryset_sub _ _ _ _ Eq Hc) as Hcs.
    destruct (collect_comments_closed (comments st) [c_id c]) as [Hb Hcl].
    { intros x [<-|[]]. apply in_map, Hcs. }
    split; [reflexivity|].
    intros d Hd. unfold delete_comment; simpl. rewrite filter_In. split.
    + intros [_ Hn] k Hk.
      assert (Hin : In (c_id d) (collect_comments (comments st) [c_id c])).
      { apply (closed_contains_descendants st _ Hcl k (c_id d) (c_id c) Hk).
        apply Hb; left; reflexivity. }
      apply memb_In in Hin. rewrite Hin in Hn. discriminate.
    + intros Hno. split; [exact Hd|].
      destruct (memb (c_id d) (collect_comments (comments st) [c_id c])) eqn:Em; [|reflexivity].
      apply memb_In in Em. destruct (collect_descendants st [c_id c] Hnd _ Em) as [k [b [Hb' Hk]]].
      destruct Hb' as [<-|[]]. exfalso. exact (Hno k Hk).
Qed.

(** Deleting comment 2 of the thread keeps comment 1 and removes 3. *)
Lemma delete_removes_exactly_witness :
  In cm1 (comments (fst (handle drf_defaults (fun l => l) 5 RComment thread_store
                           (mkRequest DELETE (Some 2) (Some 2) ∅ None None 9)))).
Proof.
  apply (proj2 (proj2 (proj2 (delete_removes_exactly drf_defaults (fun l => l) 5 thread_store
           (mkRequest DELETE (Some 2) (Some 2) ∅ None None 9) 2
           (fst (handle drf_defaults (fun l => l) 5 RComment thread_store
                  (mkRequest DELETE (Some 2) (Some 2) ∅ None None 9)))
           (proj1 thread_store_acyclic) eq_refl eq_refl)
           ltac:(vm_compute; reflexivity)) cm1 (or_introl eq_refl))).
  intros k. destruct k as [|[|k]]; simpl; try discriminate.
Defined.

(* ------------------------------------------------------------------ *)
(** ** PUT is a full update *)






(* ------------------------------------------------------------------ *)
(** ** Keys sent as decimal strings *)

Lemma parent_field_decimal st partial z :
  parent_field st partial (Some (VStr (z_to_str z))) = parent_field st partial (Some (VInt z)).
Proof.
  pose proof (python_int_z_to_str z) as Hp. pose proof (z_to_str_nonempty z) as Hn.
  unfold parent_field. destruct (z_to_str z) as [|a s]; [contradiction|].
  rewrite Hp. reflexivity.
Qed.

(** The [parent] of a comment may be sent as a number or as its decimal
    string ([int()] reads back what [str()] writes): every request on the
    comment endpoints has the same outcome either way. *)
Theorem parent_as_decimal_string cfg qo fuel st req b z :
  handle cfg qo fuel RComment st (with_data req (<["parent" := VStr (z_to_str z)]> b)) =
  handle cfg qo fuel RComment st (with_data req (<["parent" := VInt z]> b)).
Proof.
  destruct req as [m cl tg bd pid pg op nw tk]. unfold with_data, handle.
  unfold create_action, update_action, list_action, options_detail, clone_request, get_object.
  cbn [check_permissions check_object_permissions has_permission has_object_permission
       method caller data target post_id_param page_param other_params now tick].
  unfold validate_comment, validate_post, validate_name.
  rewrite ?(lookup_insert_ne _ "parent" "post"), ?(lookup_insert_ne _ "parent" "content"),
    ?(lookup_insert_ne _ "parent" "title"), ?(lookup_insert_ne _ "parent" "category"),
    ?(lookup_insert_ne _ "parent" "tag"), ?(lookup_insert_ne _ "parent" "name") by discriminate.
  rewrite ?lookup_insert_eq, ?parent_field_decimal. reflexivity.
Qed.
